(** * The tool servers of the command-line assistant

    A shallow embedding of the [calendar_find_free] tool handler of
    servers/calendar-mcp/index.js, of the other tool servers and of the
    client's command line, and the properties they have.

    Modelling conventions.
    - An instant is the number [new Date(s).getTime()] gives for an ISO-8601
      string [s] that [Date] parses: a time value, a whole number of
      milliseconds with magnitude at most 8.64e15, here a [Z]. Unparseable
      strings (NaN) are outside this model: the free/busy query is sent the
      same strings before the scan starts.
    - The handler is given twice. [scan] and [calendar_find_free] compute in
      exact arithmetic and keep a slot's instants as they are. [js_scan],
      [calendar_find_free_js] and [calendar_find_free_tool] compute as
      JavaScript does: differences, sums and products are rounded to the
      nearest double, and [new Date(v).toISOString()] throws a RangeError
      when [v] is not a time value. The two agree wherever nothing is
      rounded ([findFreeSlot_js_exact]).
    - [new Date(t).toISOString()] is a one-to-one rendering of the time value
      [t]; a result keeps the instant, and [null] is [None].
    - The free/busy query is the external interval source: the handler is a
      function of the list it answers. *)

From Stdlib Require Import ZArith List Lia Bool String Ascii DecimalString.
From Stdlib Require Import Sorting.Sorted Relations.Relation_Operators.
Import ListNotations.
Open Scope Z_scope.

(** ** Data *)

(** One entry of [fb.data.calendars.primary.busy]: [{ start, end }]. *)
Record BusyInterval : Set := mkBusy { start : Z; end_ : Z }.

(** The JSON payload the handler answers with:
    [{ slotStart, slotEnd, timeZone }], the first two [null] when no slot
    was found. *)
Record FreeSlotResult : Set := mkResult {
  slotStart : option Z;
  slotEnd : option Z;
  timeZone : string
}.

(** [{ slotStart: toISOString(cursor), slotEnd: toISOString(cursor + durMs), timeZone }]
    for a sum that is exact and instants that are time values; [js_found]
    below has the rounding and the [RangeError]. *)
Definition found (cursor durMs : Z) (tz : string) : FreeSlotResult :=
  mkResult (Some cursor) (Some (cursor + durMs)) tz.

(** [{ slotStart: null, slotEnd: null, timeZone }] *)
Definition notFound (tz : string) : FreeSlotResult :=
  mkResult None None tz.

(** ** The handler *)

(** The [for (const b of busy)] loop with its early [return], followed by the
    test against [endWin] after the loop, in exact arithmetic. [cursor] is
    the loop's only variable. [js_scan] below is the same loop in the
    arithmetic of doubles. *)
Fixpoint scan (busy : list BusyInterval) (cursor endWin durMs : Z)
  (tz : string) : FreeSlotResult :=
  match busy with
  | b :: rest =>
      let bStart := start b in
      if bStart - cursor >=? durMs then found cursor durMs tz
      else
        let bEnd := end_ b in
        scan rest (Z.max cursor bEnd) endWin durMs tz
  | [] =>
      if endWin - cursor >=? durMs then found cursor durMs tz
      else notFound tz
  end.

(** The body of [if (name === "calendar_find_free")] after the arguments are
    parsed and the free/busy query has answered [busy], in exact
    arithmetic. *)
Definition calendar_find_free (busy : list BusyInterval)
  (timeMin timeMax durationMinutes : Z) (tz : string) : FreeSlotResult :=
  let cursor := timeMin in
  let endWin := timeMax in
  let durMs := durationMinutes * 60 * 1000 in
  scan busy cursor endWin durMs tz.

(** [process.env.CALENDAR_DEFAULT_TZ || "America/Chicago"]: an unset or empty
    variable gives the fallback. *)
Definition DEFAULT_TZ (env : option string) : string :=
  match env with
  | Some s => if String.eqb s EmptyString then "America/Chicago"%string else s
  | None => "America/Chicago"%string
  end.

(** ** The loop as a transition system

    The same loop, one iteration at a time: a configuration is the value of
    [cursor] with the intervals not yet visited, or the returned payload. *)
Inductive Config : Set :=
| Running (cursor : Z) (rest : list BusyInterval)
| Returned (r : FreeSlotResult).

Inductive step (endWin durMs : Z) (tz : string) : Config -> Config -> Prop :=
| step_fit : forall cursor b rest,
    start b - cursor >= durMs ->
    step endWin durMs tz (Running cursor (b :: rest))
         (Returned (found cursor durMs tz))
| step_advance : forall cursor b rest,
    start b - cursor < durMs ->
    step endWin durMs tz (Running cursor (b :: rest))
         (Running (Z.max cursor (end_ b)) rest)
| step_tail_fit : forall cursor,
    endWin - cursor >= durMs ->
    step endWin durMs tz (Running cursor [])
         (Returned (found cursor durMs tz))
| step_tail_none : forall cursor,
    endWin - cursor < durMs ->
    step endWin durMs tz (Running cursor []) (Returned (notFound tz)).

Definition steps (endWin durMs : Z) (tz : string) : Config -> Config -> Prop :=
  clos_refl_trans_1n Config (step endWin durMs tz).

(** A run of the handler on [busy]: from the initial configuration to a
    returned payload. *)
Definition runs_to (busy : list BusyInterval)
  (timeMin timeMax durationMinutes : Z) (tz : string)
  (r : FreeSlotResult) : Prop :=
  steps timeMax (durationMinutes * 60 * 1000) tz
        (Running timeMin busy) (Returned r).

(** ** The specification's vocabulary *)

(** [{ windowStart, windowEnd }], the caller's [timeMin] and [timeMax]. *)
Record SearchWindow : Set := mkWindow { windowStart : Z; windowEnd : Z }.

(** The instant [m] minutes after [t0]. *)
Definition minutes_from (t0 m : Z) : Z := t0 + m * 60 * 1000.

(** A duration in minutes, in the unit of the instants. *)
Definition in_ms (duration : Z) : Z := duration * 60 * 1000.

(** [findFreeSlot(busy, window, duration)] is the handler's scan, in exact
    arithmetic. *)
Definition findFreeSlot (busy : list BusyInterval) (w : SearchWindow)
  (duration : Z) (tz : string) : FreeSlotResult :=
  calendar_find_free busy (windowStart w) (windowEnd w) duration tz.

(** ** The handler in JavaScript's arithmetic

    [scan] above computes with exact whole numbers. The handler computes
    with IEEE 754 doubles: a difference, a sum or a product that needs more
    than 53 bits is rounded to the nearest double, ties to the even
    significand, and [new Date(v).toISOString()] throws a [RangeError] when
    [v] is not a time value. The definitions below follow the handler with
    that arithmetic; every number they meet is a whole number or
    [+Infinity]. *)

(** The double nearest to the whole number [a >= 0] (ties to even), as long
    as it is finite: [a] itself up to [2^53], a multiple of [2^e] with a
    significand of 53 bits beyond. *)
Definition round_magnitude (a : Z) : Z :=
  if a <? 2 ^ 53 then a
  else
    let e := Z.log2 a - 52 in
    let q := a / 2 ^ e in
    let r := a mod 2 ^ e in
    let half := 2 ^ (e - 1) in
    let q' := if r <? half then q
              else if half <? r then q + 1
              else if Z.even q then q else q + 1 in
    q' * 2 ^ e.

(** The double nearest to the whole number [z]. *)
Definition fl (z : Z) : Z := Z.sgn z * round_magnitude (Z.abs z).

(** A JavaScript number that is a whole number or [+Infinity]. *)
Inductive JsNum : Set :=
| Finite (z : Z)
| PosInfinity.

(** From this magnitude on a result rounds to [Infinity]: half an ulp above
    [Number.MAX_VALUE]. *)
Definition DOUBLE_OVERFLOW : Z := 2 ^ 1024 - 2 ^ 970.

(** [x * k] for a positive [x] and a positive whole constant [k]. *)
Definition js_times (x : JsNum) (k : Z) : JsNum :=
  match x with
  | PosInfinity => PosInfinity
  | Finite z =>
      if z * k >=? DOUBLE_OVERFLOW then PosInfinity else Finite (fl (z * k))
  end.

(** [const durMs = durationMinutes * 60 * 1000], for the
    [durationMinutes >= 1] the schema lets through. *)
Definition durMs_js (durationMinutes : Z) : JsNum :=
  js_times (js_times (Finite durationMinutes) 60) 1000.

(** [x >= durMs] for a finite [x]. *)
Definition js_ge (x : Z) (durMs : JsNum) : bool :=
  match durMs with
  | Finite d => x >=? d
  | PosInfinity => false
  end.

(** The largest time value of a [Date], in milliseconds either side of the
    epoch. *)
Definition MAX_TIME : Z := 8640000000000000.

(** [t] is a time value, as [getTime()] gives for a string [Date] parses. *)
Definition time_value (t : Z) : Prop := - MAX_TIME <= t <= MAX_TIME.

(** [new Date(v).toISOString()]: the instant for a time value, [None] for
    the [RangeError] otherwise. *)
Definition toISOString (v : Z) : option Z :=
  if Z.abs v <=? MAX_TIME then Some v else None.

(** What a [calendar_find_free] call ends in: [schema.parse] throws, the
    calendar client or its free/busy query throws, [toISOString] throws, or
    the payload is returned. *)
Inductive ToolOutcome : Set :=
| ZodError
| CalendarError
| RangeError
| Content (r : FreeSlotResult).

(** The two [toISOString] calls before a [return] with a slot, in the
    handler's order. *)
Definition js_found (cursor : Z) (durMs : JsNum) (tz : string) : ToolOutcome :=
  match toISOString cursor with
  | None => RangeError
  | Some slotStart =>
      match durMs with
      | PosInfinity => RangeError
      | Finite d =>
          match toISOString (fl (cursor + d)) with
          | None => RangeError
          | Some slotEnd => Content (mkResult (Some slotStart) (Some slotEnd) tz)
          end
      end
  end.

(** The loop and the test after it, as [scan], in the handler's
    arithmetic. *)
Fixpoint js_scan (busy : list BusyInterval) (cursor endWin : Z)
  (durMs : JsNum) (tz : string) : ToolOutcome :=
  match busy with
  | b :: rest =>
      let bStart := start b in
      if js_ge (fl (bStart - cursor)) durMs then js_found cursor durMs tz
      else
        let bEnd := end_ b in
        js_scan rest (Z.max cursor bEnd) endWin durMs tz
  | [] =>
      if js_ge (fl (endWin - cursor)) durMs then js_found cursor durMs tz
      else Content (notFound tz)
  end.

(** The handler from the schema's test of [durationMinutes] to its
    [return], for the busy list the free/busy query answered and the time
    values of [timeMin] and [timeMax]. *)
Definition calendar_find_free_js (busy : list BusyInterval)
  (timeMin timeMax durationMinutes : Z) (tz : string) : ToolOutcome :=
  if durationMinutes <? 1 then ZodError
  else
    let cursor := timeMin in
    let endWin := timeMax in
    let durMs := durMs_js durationMinutes in
    js_scan busy cursor endWin durMs tz.

(** The [arguments] of a call. [durationMinutes] is a whole number or
    absent (any other value is rejected by the schema like an absent one);
    [timeMin] and [timeMax] are strings, here the time values [Date] reads
    from them, or absent; [timeZone] is a string or absent. *)
Record FindFreeArgs : Set := mkFindFreeArgs {
  durationMinutes : option Z;
  timeMin : option Z;
  timeMax : option Z;
  timeZone_arg : option string
}.

(** The whole [calendar_find_free] branch. [env] is
    [process.env.CALENDAR_DEFAULT_TZ]; [getCalendar] is [None] when
    [getCalendar()] throws, else the free/busy query of the client, which
    answers [None] when it throws and else [calendars.primary.busy], absent
    or a list. *)
Definition calendar_find_free_tool (env : option string)
  (getCalendar :
     option (Z -> Z -> string -> option (option (list BusyInterval))))
  (args : FindFreeArgs) : ToolOutcome :=
  match durationMinutes args, timeMin args, timeMax args with
  | Some d, Some tMin, Some tMax =>
      if d <? 1 then ZodError
      else
        let tz := match timeZone_arg args with
                  | Some z => z
                  | None => DEFAULT_TZ env
                  end in
        match getCalendar with
        | None => CalendarError
        | Some freebusy_query =>
            match freebusy_query tMin tMax tz with
            | None => CalendarError
            | Some answer =>
                let busy := match answer with Some l => l | None => [] end in
                js_scan busy tMin tMax (durMs_js d) tz
            end
        end
  | _, _, _ => ZodError
  end.


(** [findFreeSlot(busy, window, duration)] in the handler's arithmetic. *)
Definition findFreeSlot_js (busy : list BusyInterval) (w : SearchWindow)
  (duration : Z) (tz : string) : ToolOutcome :=
  calendar_find_free_js busy (windowStart w) (windowEnd w) duration tz.

(** The window's bounds and the bounds of every busy interval are time
    values. *)
Definition time_values (busy : list BusyInterval) (w : SearchWindow) : Prop :=
  time_value (windowStart w) /\ time_value (windowEnd w)
  /\ Forall (fun b => time_value (start b) /\ time_value (end_ b)) busy.

(** No test against the window's end is rounded: the duration fits 53 bits
    of milliseconds, or the window is no longer than [2^53] ms. *)
Definition window_unrounded (w : SearchWindow) (duration : Z) : Prop :=
  in_ms duration <= 2 ^ 53 \/ windowEnd w - windowStart w <= 2 ^ 53.

(** No test against an interval's start is rounded: the duration fits 53
    bits of milliseconds, or no interval starts more than [2^53] ms after
    the window's start. *)
Definition starts_unrounded (busy : list BusyInterval) (w : SearchWindow)
  (duration : Z) : Prop :=
  in_ms duration <= 2 ^ 53
  \/ Forall (fun b => start b - windowStart w <= 2 ^ 53) busy.

(** The interval starts less than the duration after the window's start,
    and no more than [2^53] ms after it. *)
Definition starts_too_soon (w : SearchWindow) (duration : Z)
  (b : BusyInterval) : Prop :=
  start b - windowStart w < in_ms duration
  /\ start b - windowStart w <= 2 ^ 53.

(** The algorithm in the specification's own words (section 4.1), kept apart
    from the handler to be compared with it. A pass is still scanning with a
    cursor, or has stopped at a slot. *)
Inductive Pass : Set :=
| Scanning (cursor : Z)
| Stopped (slot : Z * Z).

(** Step 2 on one interval: (a) a gap of at least [duration] before the
    interval's start is returned; (b) otherwise the cursor advances to
    [max(cursor, interval.end)]. *)
Definition visit (duration : Z) (p : Pass) (interval : BusyInterval) : Pass :=
  match p with
  | Stopped slot => Stopped slot
  | Scanning cursor =>
      if duration <=? start interval - cursor
      then Stopped (cursor, cursor + duration)
      else Scanning (Z.max cursor (end_ interval))
  end.

(** Steps 1, 3 and 4: the cursor starts at [window.windowStart]; after the
    last interval the remaining gap up to [window.windowEnd] is tried; the
    duration, given in minutes, is converted once at entry. *)
Definition findFreeSlot_spec (busy : list BusyInterval) (w : SearchWindow)
  (duration : Z) : option (Z * Z) :=
  let d := in_ms duration in
  match fold_left (visit d) busy (Scanning (windowStart w)) with
  | Stopped slot => Some slot
  | Scanning cursor =>
      if d <=? windowEnd w - cursor then Some (cursor, cursor + d) else None
  end.

(** A slot, or "not found", as the handler's payload. *)
Definition payload (slot : option (Z * Z)) (tz : string) : FreeSlotResult :=
  match slot with
  | Some (s, e) => mkResult (Some s) (Some e) tz
  | None => notFound tz
  end.

(** The busy list is ascending by [start]. *)
Definition sorted_by_start (busy : list BusyInterval) : Prop :=
  Sorted (fun a b => start a <= start b) busy.

(** The span from [s] to [e] does not overlap the busy interval [b]. *)
Definition respects (s e : Z) (b : BusyInterval) : Prop :=
  e <= start b \/ end_ b <= s.





(** The interval starts no later than the window ends, as the intervals a
    free/busy query for the window answers do. *)
Definition starts_in_time (w : SearchWindow) (b : BusyInterval) : Prop :=
  start b <= windowEnd w.

(** * The other tool servers and the client

    Strings are sequences of code units; the operations used below
    (concatenation, [join], [slice], splitting at a character, [trim]) treat
    the units as opaque, so Rocq's [string] stands for a JavaScript string.
    Whatever lies outside the process (the file system, the network, the PDF
    library, the search API) is an argument of the function that uses it. *)

(** ** The PDF reader server (servers/pdf-reader-mcp/index.js) *)

Definition CRLF : string := String "013"%char (String "010"%char EmptyString).

(** An entry of [content.items]: with a [str] field, or without one. *)
Inductive TextItem : Set :=
| WithStr (str : string)
| WithoutStr.

(** What [pdfjs.getDocument({ data }).promise] resolves to: [numPages], and
    [getPage(i)] with its text content ([None] when the promise rejects). *)
Record PdfDocument : Set := mkDoc {
  numPages : nat;
  getPage : nat -> option (list TextItem)
}.

(** [content.items.map((it) => ("str" in it ? it.str : "")).join(" ")] *)
Definition page_text (items : list TextItem) : string :=
  String.concat " "
    (map (fun it => match it with WithStr str => str | WithoutStr => EmptyString end)
         items).

(** The server's in-memory state [loaded]. *)
Record Loaded : Set := mkLoaded {
  pages : list string;
  pageCount : nat;
  source : string
}.

(** [let loaded = { pages: [], pageCount: 0, source: "" }] *)
Definition loaded_init : Loaded := mkLoaded [] 0 EmptyString.

(** [for (let i = 1; i <= pageCount; i++) { ...; pages.push(text); }] from
    index [i] with [remaining] iterations to go. *)
Fixpoint extract_pages (doc : PdfDocument) (i remaining : nat)
  (pages : list string) : option (list string) :=
  match remaining with
  | O => Some pages
  | S k =>
      match getPage doc i with
      | None => None
      | Some items => extract_pages doc (S i) k (pages ++ [page_text items])
      end
  end.

(** [loadPdfToMemory(target)]: [open_pdf] is the fetch or file read followed
    by [pdfjs.getDocument]; [None] is a thrown error, which leaves [loaded]
    as it was. The result is [{ pageCount }] with the new state. *)
Definition loadPdfToMemory (open_pdf : string -> option PdfDocument)
  (target : string) (loaded : Loaded) : option nat * Loaded :=
  match open_pdf target with
  | None => (None, loaded)
  | Some doc =>
      let pageCount := numPages doc in
      match extract_pages doc 1 pageCount [] with
      | None => (None, loaded)
      | Some pages => (Some pageCount, mkLoaded pages pageCount target)
      end
  end.

Inductive PdfError : Set :=
| PdfZodError
| PdfLoadError
| NoPdfLoaded
| PageOutOfRange (pageCount : nat)
| PdfUnknownTool (name : string).

(** The JSON payloads: [{ ok: true, pages, source }], [{ pages }] and
    [{ page, text }]. *)
Inductive PdfPayload : Set :=
| LoadedOk (pages : nat) (source : string)
| PageCount (pages : nat)
| PageText (page : Z) (text : string).

(** The [arguments] of a call: [target] is a string or absent, [page] a whole
    number or absent (any other value is rejected by the schema like an
    absent one). *)
Record PdfArgs : Set := mkPdfArgs {
  target : option string;
  page : option Z
}.

(** The [CallToolRequestSchema] handler of the PDF server. *)
Definition pdf_call_tool (open_pdf : string -> option PdfDocument)
  (loaded : Loaded) (name : string) (args : PdfArgs)
  : (PdfError + PdfPayload) * Loaded :=
  if String.eqb name "load_pdf" then
    match target args with
    | None => (inl PdfZodError, loaded)
    | Some target =>
        if (String.length target <? 1)%nat then (inl PdfZodError, loaded)
        else
          match loadPdfToMemory open_pdf target loaded with
          | (None, loaded') => (inl PdfLoadError, loaded')
          | (Some pageCount, loaded') =>
              (inr (LoadedOk pageCount target), loaded')
          end
    end
  else if String.eqb name "page_count" then
    if (pageCount loaded =? 0)%nat then (inl NoPdfLoaded, loaded)
    else (inr (PageCount (pageCount loaded)), loaded)
  else if String.eqb name "extract_text" then
    match page args with
    | None => (inl PdfZodError, loaded)
    | Some page =>
        if page <? 1 then (inl PdfZodError, loaded)
        else if (pageCount loaded =? 0)%nat then (inl NoPdfLoaded, loaded)
        else if page >? Z.of_nat (pageCount loaded)
        then (inl (PageOutOfRange (pageCount loaded)), loaded)
        else
          let text :=
            match nth_error (pages loaded) (Z.to_nat (page - 1)) with
            | Some t => t
            | None => EmptyString
            end in
          (inr (PageText page text), loaded)
    end
  else (inl (PdfUnknownTool name), loaded).

(** [loaded.pageCount] is the number of entries of [loaded.pages]. *)
Definition consistent (loaded : Loaded) : Prop :=
  pageCount loaded = List.length (pages loaded).

(** A sequence of tool calls, each with the state the one before left. *)
Fixpoint pdf_session (open_pdf : string -> option PdfDocument)
  (loaded : Loaded) (calls : list (string * PdfArgs)) : Loaded :=
  match calls with
  | [] => loaded
  | (name, args) :: rest =>
      pdf_session open_pdf (snd (pdf_call_tool open_pdf loaded name args)) rest
  end.

(** ** The client's [askpdf] command (src/client.ts) *)




(** ** The web search server (servers/web-search-mcp/index.js) *)

(** An entry of [json.organic_results], with the fields the handler reads;
    a field is a string or absent. *)
Record OrganicResult : Set := mkOrganic {
  title : option string;
  link : option string;
  snippet : option string
}.

(** [{ title: r.title, url: r.link, snippet: r.snippet }] *)
Record SearchHit : Set := mkHit {
  hit_title : option string;
  url : option string;
  hit_snippet : option string
}.

Inductive WebError : Set :=
| WebUnknownTool (name : string)
| WebZodError
| MissingSerpApiKey
| SearchFailed.

(** The [CallToolRequestSchema] handler. [getJson q num api_key] is the
    search API: [None] when it throws, else the answer's [organic_results],
    which may be absent. The payload is [{ query, results }]. *)
Definition web_call_tool (SERPAPI_KEY : option string)
  (getJson : string -> Z -> string -> option (option (list OrganicResult)))
  (name : string) (query : option string) (num_arg : option Z)
  : WebError + (string * list SearchHit) :=
  if negb (String.eqb name "web_search") then inl (WebUnknownTool name)
  else
    match query with
    | None => inl WebZodError
    | Some query =>
        if (String.length query <? 1)%nat then inl WebZodError
        else if match num_arg with
                | Some n => (n <? 1) || (n >? 10)
                | None => false
                end
        then inl WebZodError
        else
          let num := match num_arg with Some n => n | None => 5 end in
          match SERPAPI_KEY with
          | None => inl MissingSerpApiKey
          | Some apiKey =>
              if String.eqb apiKey EmptyString then inl MissingSerpApiKey
              else
                match getJson query num apiKey with
                | None => inl SearchFailed
                | Some organic_results =>
                    let organic :=
                      map (fun r => mkHit (title r) (link r) (snippet r))
                          (firstn (Z.to_nat num)
                             match organic_results with
                             | Some l => l
                             | None => []
                             end) in
                    inr (query, organic)
                end
          end
    end.

(** ** The mail server's [buildMessage] (servers/gmail-mcp/index.js) *)

(** [s.replace(/c/g, d)] for a single character [c]. *)
Fixpoint replace_char (c d : ascii) (s : string) : string :=
  match s with
  | EmptyString => EmptyString
  | String a s' => String (if Ascii.eqb a c then d else a) (replace_char c d s')
  end.

(** [s.replace(/c+$/, "")]: the run of [c] at the end of [s] is removed. *)
Fixpoint strip_trailing (c : ascii) (s : string) : string :=
  match s with
  | EmptyString => EmptyString
  | String a s' =>
      match strip_trailing c s' with
      | EmptyString => if Ascii.eqb a c then EmptyString else String a EmptyString
      | t => String a t
      end
  end.

(** [buildMessage({ to, subject, body })]; [base64_of_utf8] is
    [Buffer.from(lines, "utf8").toString("base64")]. *)
Definition buildMessage (base64_of_utf8 : string -> string)
  (to subject body : string) : string :=
  let lines :=
    String.concat CRLF
      [ "To: " ++ to;
        "Subject: " ++ subject;
        "Content-Type: text/plain; charset=utf-8";
        EmptyString;
        body ]%string in
  let base64 := base64_of_utf8 lines in
  strip_trailing "="
    (replace_char "/" "_" (replace_char "+" "-" base64)).

(** The character [c] occurs in [s]. *)
Fixpoint occurs (c : ascii) (s : string) : bool :=
  match s with
  | EmptyString => false
  | String a s' => Ascii.eqb a c || occurs c s'
  end.

(** The last character of [s], if any. *)
Fixpoint last_char (s : string) : option ascii :=
  match s with
  | EmptyString => None
  | String a EmptyString => Some a
  | String _ s' => last_char s'
  end.

(** ** The client's command line (src/client.ts)

    [is_space] is the character class [\s], which is also what [trim]
    removes. *)

(** [s.trimStart()] *)
Fixpoint trim_start (is_space : ascii -> bool) (s : string) : string :=
  match s with
  | EmptyString => EmptyString
  | String a s' => if is_space a then trim_start is_space s' else s
  end.

(** [s.trimEnd()] *)
Fixpoint trim_end (is_space : ascii -> bool) (s : string) : string :=
  match s with
  | EmptyString => EmptyString
  | String a s' =>
      match trim_end is_space s' with
      | EmptyString => if is_space a then EmptyString else String a EmptyString
      | t => String a t
      end
  end.

(** [s.trim()] *)
Definition trim (is_space : ascii -> bool) (s : string) : string :=
  trim_end is_space (trim_start is_space s).

(** [s.split(/\s+/)]: the pieces between the maximal runs of white space,
    an empty piece before a leading and after a trailing run; [in_run] says
    that the character before was white space. *)
Fixpoint split_runs (is_space : ascii -> bool) (in_run : bool) (s : string)
  : list string :=
  match s with
  | EmptyString => [EmptyString]
  | String a s' =>
      if is_space a then
        if in_run then split_runs is_space true s'
        else EmptyString :: split_runs is_space true s'
      else
        match split_runs is_space false s' with
        | piece :: pieces => String a piece :: pieces
        | [] => [String a EmptyString]
        end
  end.

(** [s.split(c)] for a single character [c]. *)
Fixpoint split_at (c : ascii) (s : string) : list string :=
  match s with
  | EmptyString => [EmptyString]
  | String a s' =>
      match split_at c s' with
      | piece :: pieces =>
          if Ascii.eqb a c then EmptyString :: piece :: pieces
          else String a piece :: pieces
      | [] => [EmptyString]
      end
  end.

(** [const [cmd, ...rest] = line.trim().split(/\s+/); const arg = rest.join(" ")] *)
Definition parse_line (is_space : ascii -> bool) (line : string)
  : string * string :=
  let pieces := split_runs is_space false (trim is_space line) in
  let cmd := hd EmptyString pieces in
  let rest := tl pieces in
  let arg := String.concat " " rest in
  (cmd, arg).

(** What [emaildraft] and [emailsend] do with their argument: print the
    usage line, or call the mail tool with [{ to, subject, body }]. *)
Inductive MailCommand : Set :=
| MailUsage
| MailRequest (to subject body : string).

(** [const [to, subject, body] = arg.split("|").map(s => (s ?? "").trim());
     if (!to || !subject || !body) return console.log('Usage: ...')]:
    a missing field is [undefined], as falsy as the empty string. *)
Definition emaildraft (is_space : ascii -> bool) (arg : string) : MailCommand :=
  let fields := map (trim is_space) (split_at "|" arg) in
  let to := nth 0 fields EmptyString in
  let subject := nth 1 fields EmptyString in
  let body := nth 2 fields EmptyString in
  if String.eqb to EmptyString || String.eqb subject EmptyString
     || String.eqb body EmptyString
  then MailUsage
  else MailRequest to subject body.

(** The first character of [s], if any. *)
Definition first_char (s : string) : option ascii :=
  match s with
  | EmptyString => None
  | String a _ => Some a
  end.

(** [s] neither starts nor ends with white space. *)
Definition trimmed (is_space : ascii -> bool) (s : string) : Prop :=
  (forall a, first_char s = Some a -> is_space a = false)
  /\ (forall a, last_char s = Some a -> is_space a = false).

(** ** Basic facts about the scan *)

Lemma scan_nil cursor endWin durMs tz :
  scan [] cursor endWin durMs tz =
  if endWin - cursor >=? durMs then found cursor durMs tz else notFound tz.
Proof. reflexivity. Qed.

Lemma scan_cons b rest cursor endWin durMs tz :
  scan (b :: rest) cursor endWin durMs tz =
  if start b - cursor >=? durMs then found cursor durMs tz
  else scan rest (Z.max cursor (end_ b)) endWin durMs tz.
Proof. reflexivity. Qed.

Lemma geb_ge x y : (x >=? y) = true <-> x >= y.
Proof. rewrite Z.geb_le. lia. Qed.

Lemma geb_lt x y : (x >=? y) = false <-> x < y.
Proof.
  destruct (x >=? y) eqn:E.
  - apply geb_ge in E. split; [discriminate | lia].
  - split; [intros _ | reflexivity].
    destruct (Z_lt_ge_dec x y) as [H | H]; [exact H |].
    apply geb_ge in H. congruence.
Qed.

(** Case analysis on a test [x >=? y] of the handler, with the arithmetic
    fact it decides left in the context. *)
Ltac split_geb :=
  match goal with
  | |- context [?x >=? ?y] =>
      let E := fresh "E" in
      destruct (x >=? y) eqn:E;
      [apply geb_ge in E | apply geb_lt in E]
  | H : context [?x >=? ?y] |- _ =>
      let E := fresh "E" in
      destruct (x >=? y) eqn:E;
      [apply geb_ge in E | apply geb_lt in E]
  end.



(** ** The handler against the specified pass *)

Lemma fold_visit_stopped d busy slot :
  fold_left (visit d) busy (Stopped slot) = Stopped slot.
Proof. induction busy as [| b rest IH]; [reflexivity | exact IH]. Qed.

Lemma leb_geb x y : (x <=? y) = (y >=? x).
Proof. rewrite Z.geb_leb. reflexivity. Qed.

(** From any cursor, the handler's loop and the fold of [visit] agree. *)
Lemma scan_fold_visit busy : forall cursor endWin d tz,
  scan busy cursor endWin d tz =
  payload
    match fold_left (visit d) busy (Scanning cursor) with
    | Stopped slot => Some slot
    | Scanning c => if d <=? endWin - c then Some (c, c + d) else None
    end tz.
Proof.
  induction busy as [| b rest IH]; intros cursor endWin d tz.
  - cbn [fold_left]. rewrite scan_nil, leb_geb.
    destruct (endWin - cursor >=? d); reflexivity.
  - rewrite scan_cons. cbn [fold_left visit]. rewrite leb_geb.
    destruct (start b - cursor >=? d).
    + rewrite fold_visit_stopped. reflexivity.
    + apply IH.
Qed.

(** ** The transition system against the handler *)

Lemma step_deterministic endWin durMs tz c c1 c2 :
  step endWin durMs tz c c1 -> step endWin durMs tz c c2 -> c1 = c2.
Proof.
  intros H1 H2.
  inversion H1; subst; inversion H2; subst;
    try reflexivity; try lia.
Qed.

Lemma returned_is_final endWin durMs tz r c :
  ~ step endWin durMs tz (Returned r) c.
Proof. intros H. inversion H. Qed.

(** Every run from a running configuration reaches the payload [scan]
    computes. *)
Lemma steps_reach_scan endWin durMs tz rest : forall cursor,
  steps endWin durMs tz (Running cursor rest)
        (Returned (scan rest cursor endWin durMs tz)).
Proof.
  induction rest as [| b rest IH]; intros cursor.
  - rewrite scan_nil. eapply rt1n_trans; [| apply rt1n_refl]. split_geb.
    + apply step_tail_fit. exact E.
    + apply step_tail_none. exact E.
  - rewrite scan_cons. split_geb.
    + eapply rt1n_trans; [| apply rt1n_refl]. apply step_fit. exact E.
    + eapply rt1n_trans; [apply step_advance; exact E | apply IH].
Qed.

(** Two runs from one configuration to returned payloads end in the same
    payload. *)
Lemma steps_returned_unique endWin durMs tz c r1 :
  steps endWin durMs tz c (Returned r1) ->
  forall r2, steps endWin durMs tz c (Returned r2) -> r1 = r2.
Proof.
  intros H1.
  remember (Returned r1) as final eqn:Hf.
  induction H1 as [c | c c' final Hstep Hrest IH]; intros r2 H2.
  - subst c. inversion H2 as [| c1 c2 Hs Hr]; subst.
    + reflexivity.
    + exfalso. exact (returned_is_final _ _ _ _ _ Hs).
  - inversion H2 as [| c'' c2 Hs Hr]; subst.
    + exfalso. exact (returned_is_final _ _ _ _ _ Hstep).
    + rewrite (step_deterministic _ _ _ _ _ _ Hs Hstep) in Hr.
      apply IH; [reflexivity | exact Hr].
Qed.

(** The runs of the transition system are the handler's function. *)
Lemma runs_to_iff busy timeMin timeMax durationMinutes tz r :
  runs_to busy timeMin timeMax durationMinutes tz r <->
  r = calendar_find_free busy timeMin timeMax durationMinutes tz.
Proof.
  unfold runs_to, calendar_find_free. split.
  - intros H. symmetry.
    eapply steps_returned_unique; [apply steps_reach_scan | exact H].
  - intros ->. apply steps_reach_scan.
Qed.

(** ** The empty busy list and the concrete scenarios *)

(** C8. With the window [[0, 120]] and a duration of 30 (offsets in minutes
    from any base instant): busy [[60, 90]] gives the slot [[0, 30]]; busy
    [[0, 90]] gives [[90, 120]]; busy [[0, 100]] gives "not found". *)
Theorem findFreeSlot_scenarios :
  forall (t0 : Z) (tz : string),
    let at_ := minutes_from t0 in
    let w := mkWindow (at_ 0) (at_ 120) in
    findFreeSlot [mkBusy (at_ 60) (at_ 90)] w 30 tz =
      mkResult (Some (at_ 0)) (Some (at_ 30)) tz
    /\ findFreeSlot [mkBusy (at_ 0) (at_ 90)] w 30 tz =
      mkResult (Some (at_ 90)) (Some (at_ 120)) tz
    /\ findFreeSlot [mkBusy (at_ 0) (at_ 100)] w 30 tz =
      mkResult None None tz.
Proof.
  intros t0 tz at_ w. subst at_ w.
  unfold findFreeSlot, calendar_find_free, minutes_from.
  cbn [scan start end_ windowStart windowEnd].
  repeat split.
  - split_geb; [| exfalso; lia]. unfold found. do 2 f_equal. lia.
  - split_geb; [exfalso; lia |].
    replace (Z.max (t0 + 0 * 60 * 1000) (t0 + 90 * 60 * 1000))
      with (t0 + 90 * 60 * 1000) by lia.
    split_geb; [| exfalso; lia]. unfold found. do 2 f_equal. lia.
  - split_geb; [exfalso; lia |].
    replace (Z.max (t0 + 0 * 60 * 1000) (t0 + 100 * 60 * 1000))
      with (t0 + 100 * 60 * 1000) by lia.
    split_geb; [exfalso; lia | reflexivity].
Qed.

(** ** What a returned slot satisfies *)






(** ** Intervals outside the window, and windows without room *)






(** ** The cursor *)

Lemma step_cursor_monotone endWin durMs tz cursor rest cursor' rest' :
  step endWin durMs tz (Running cursor rest) (Running cursor' rest') ->
  cursor <= cursor'.
Proof. intros H. inversion H; subst. lia. Qed.

Lemma steps_from_returned endWin durMs tz r c :
  steps endWin durMs tz (Returned r) c -> c = Returned r.
Proof.
  intros H. inversion H as [| c1 c2 Hs Hr]; subst.
  - reflexivity.
  - exfalso. exact (returned_is_final _ _ _ _ _ Hs).
Qed.

Lemma steps_cursor_monotone endWin durMs tz x y :
  steps endWin durMs tz x y ->
  forall cursor rest cursor' rest',
    x = Running cursor rest -> y = Running cursor' rest' ->
    cursor <= cursor'.
Proof.
  induction 1 as [x | x y z Hstep Hrest IH];
    intros cursor rest cursor' rest' Hx Hy.
  - rewrite Hx in Hy. injection Hy as <- _. lia.
  - subst x z. destruct y as [c1 rest1 | r].
    + apply step_cursor_monotone in Hstep.
      specialize (IH c1 rest1 cursor' rest' eq_refl eq_refl). lia.
    + apply steps_from_returned in Hrest. discriminate.
Qed.

(** C6, as the handler has it. The cursor never moves backward: from one
    iteration of the loop to any later one it is non-decreasing, whatever the
    intervals (overlapping, out of order or of zero length). For the busy
    intervals [[10, 20]] and [[15, 25]] (minutes from the window start), the
    window [[0, 30]] and the duration 5, the returned slot is [[0, 5]], the gap
    before the first interval, which does not overlap [[10, 25]]; when the
    window starts at 10 instead, the cursor advances to 25 and the slot
    is [[25, 30]]. *)
Theorem cursor_never_moves_backward :
  (forall endWin durMs tz cursor rest cursor' rest',
      steps endWin durMs tz (Running cursor rest) (Running cursor' rest') ->
      cursor <= cursor')
  /\ (forall (t0 : Z) (tz : string),
         let at_ := minutes_from t0 in
         let busy := [mkBusy (at_ 10) (at_ 20); mkBusy (at_ 15) (at_ 25)] in
         findFreeSlot busy (mkWindow (at_ 0) (at_ 30)) 5 tz =
           mkResult (Some (at_ 0)) (Some (at_ 5)) tz
         /\ respects (at_ 0) (at_ 5) (mkBusy (at_ 10) (at_ 25))
         /\ findFreeSlot busy (mkWindow (at_ 10) (at_ 30)) 5 tz =
           mkResult (Some (at_ 25)) (Some (at_ 30)) tz).
Proof.
  split.
  - intros endWin durMs tz cursor rest cursor' rest' H.
    exact (steps_cursor_monotone _ _ _ _ _ H _ _ _ _ eq_refl eq_refl).
  - intros t0 tz at_ busy. subst at_ busy.
    unfold findFreeSlot, calendar_find_free, respects, minutes_from.
    cbn [scan start end_ windowStart windowEnd].
    split; [| split].
    + split_geb; [| exfalso; lia]. unfold found. do 2 f_equal. lia.
    + left. lia.
    + split_geb; [exfalso; lia |].
      replace (Z.max (t0 + 10 * 60 * 1000) (t0 + 20 * 60 * 1000))
        with (t0 + 20 * 60 * 1000) by lia.
      split_geb; [exfalso; lia |].
      replace (Z.max (t0 + 20 * 60 * 1000) (t0 + 25 * 60 * 1000))
        with (t0 + 25 * 60 * 1000) by lia.
      split_geb; [| exfalso; lia]. unfold found. do 2 f_equal. lia.
Qed.

Lemma cursor_never_moves_backward_witness :
  600000 <= 1500000.
Proof.
  apply (proj1 cursor_never_moves_backward 1800000 300000 "UTC"%string
           600000 [mkBusy 600000 1200000; mkBusy 900000 1500000]
           1500000 []).
  unfold steps.
  eapply rt1n_trans.
  - apply (step_advance 1800000 300000 "UTC" 600000
             (mkBusy 600000 1200000) [mkBusy 900000 1500000]).
    cbn. lia.
  - eapply rt1n_trans; [| apply rt1n_refl].
    apply (step_advance 1800000 300000 "UTC" 1200000
             (mkBusy 900000 1500000) []).
    cbn. lia.
Defined.

(** The claim C6 as it is written fails in its example: the gap of ten
    minutes before the first interval already fits the duration of five, so
    the slot is [[0, 5]] and not [[25, 30]]. *)
Lemma overlap_example_returns_first_gap :
  let busy := [mkBusy 600000 1200000; mkBusy 900000 1500000] in
  findFreeSlot busy (mkWindow 0 1800000) 5 "UTC" =
    mkResult (Some 0) (Some 300000) "UTC"
  /\ findFreeSlot busy (mkWindow 0 1800000) 5 "UTC" <>
    mkResult (Some 1500000) (Some 1800000) "UTC".
Proof. cbv zeta. split; [reflexivity | discriminate]. Qed.

(** ** The returned slot and the busy intervals *)

Lemma by_start_transitive :
  Relations_1.Transitive (fun a b : BusyInterval => start a <= start b).
Proof. intros a b c Hab Hbc. lia. Qed.

(** ** Further properties of the scan *)











(** ** The PDF reader server *)

(** The loop appends one text per iteration, the text of the page it asked
    for, and keeps what was there. *)
Lemma extract_pages_entries doc : forall remaining i acc ps,
  extract_pages doc i remaining acc = Some ps ->
  exists texts,
    ps = acc ++ texts
    /\ List.length texts = remaining
    /\ forall k, (k < remaining)%nat ->
         exists items, getPage doc (i + k)%nat = Some items
                       /\ nth_error texts k = Some (page_text items).
Proof.
  induction remaining as [| r IH]; intros i acc ps H; cbn [extract_pages] in H.
  - injection H as <-. exists []. rewrite app_nil_r.
    split; [reflexivity | split; [reflexivity | intros k Hk; lia]].
  - destruct (getPage doc i) as [items |] eqn:Hp; [| discriminate].
    apply IH in H. destruct H as [texts [Hps [Hlen Hnth]]].
    exists (page_text items :: texts).
    split; [rewrite Hps, <- app_assoc; reflexivity |].
    split; [cbn [List.length]; lia |].
    intros [| k] Hk.
    + exists items. rewrite Nat.add_0_r. split; [exact Hp | reflexivity].
    + destruct (Hnth k) as [items' [Hp' Hn]]; [lia |].
      exists items'. split; [| exact Hn].
      rewrite <- Hp'. f_equal. lia.
Qed.

(** The three branches of the handler. *)
Lemma call_load_pdf open_pdf loaded args :
  pdf_call_tool open_pdf loaded "load_pdf" args =
  match target args with
  | None => (inl PdfZodError, loaded)
  | Some tgt =>
      if (String.length tgt <? 1)%nat then (inl PdfZodError, loaded)
      else
        match loadPdfToMemory open_pdf tgt loaded with
        | (None, loaded') => (inl PdfLoadError, loaded')
        | (Some n, loaded') => (inr (LoadedOk n tgt), loaded')
        end
  end.
Proof. reflexivity. Qed.

Lemma call_page_count open_pdf loaded args :
  pdf_call_tool open_pdf loaded "page_count" args =
  if (pageCount loaded =? 0)%nat then (inl NoPdfLoaded, loaded)
  else (inr (PageCount (pageCount loaded)), loaded).
Proof. reflexivity. Qed.

Lemma call_extract_text open_pdf loaded args :
  pdf_call_tool open_pdf loaded "extract_text" args =
  match page args with
  | None => (inl PdfZodError, loaded)
  | Some p =>
      if p <? 1 then (inl PdfZodError, loaded)
      else if (pageCount loaded =? 0)%nat then (inl NoPdfLoaded, loaded)
      else if p >? Z.of_nat (pageCount loaded)
      then (inl (PageOutOfRange (pageCount loaded)), loaded)
      else
        (inr (PageText p
                match nth_error (pages loaded) (Z.to_nat (p - 1)) with
                | Some t => t
                | None => EmptyString
                end), loaded)
  end.
Proof. reflexivity. Qed.

(** What a load that succeeded has done. *)
Lemma load_pdf_succeeded open_pdf loaded args payload loaded' :
  pdf_call_tool open_pdf loaded "load_pdf" args = (inr payload, loaded') ->
  exists tgt doc texts,
    target args = Some tgt
    /\ open_pdf tgt = Some doc
    /\ extract_pages doc 1 (numPages doc) [] = Some texts
    /\ payload = LoadedOk (numPages doc) tgt
    /\ loaded' = mkLoaded texts (numPages doc) tgt.
Proof.
  rewrite call_load_pdf. unfold loadPdfToMemory.
  destruct (target args) as [tgt |]; [| discriminate].
  destruct (String.length tgt <? 1)%nat; [discriminate |].
  destruct (open_pdf tgt) as [doc |] eqn:Hopen; [| discriminate].
  destruct (extract_pages doc 1 (numPages doc) []) as [texts |] eqn:Hex;
    [| discriminate].
  intros H. injection H as <- <-.
  exists tgt, doc, texts. repeat split; assumption.
Qed.

(** A call changes the state only when it is a load that succeeded. *)
Lemma pdf_call_tool_state open_pdf loaded name args :
  snd (pdf_call_tool open_pdf loaded name args) = loaded
  \/ exists n tgt,
       name = "load_pdf"%string
       /\ pdf_call_tool open_pdf loaded name args =
          (inr (LoadedOk n tgt), snd (pdf_call_tool open_pdf loaded name args)).
Proof.
  unfold pdf_call_tool.
  destruct (String.eqb_spec name "load_pdf") as [-> | _].
  - destruct (target args) as [tgt |]; [| left; reflexivity].
    destruct (String.length tgt <? 1)%nat; [left; reflexivity |].
    destruct (loadPdfToMemory open_pdf tgt loaded) as [[n |] loaded'] eqn:Hl.
    + right. exists n, tgt. split; reflexivity.
    + left. unfold loadPdfToMemory in Hl.
      destruct (open_pdf tgt) as [doc |]; [| injection Hl as <-; reflexivity].
      destruct (extract_pages doc 1 (numPages doc) []);
        [discriminate | injection Hl as <-; reflexivity].
  - left.
    destruct (String.eqb name "page_count").
    + destruct (pageCount loaded =? 0)%nat; reflexivity.
    + destruct (String.eqb name "extract_text"); [| reflexivity].
      destruct (page args) as [p |]; [| reflexivity].
      destruct (p <? 1); [reflexivity |].
      destruct (pageCount loaded =? 0)%nat; [reflexivity |].
      destruct (p >? Z.of_nat (pageCount loaded)); reflexivity.
Qed.

Lemma pdf_call_tool_consistent open_pdf loaded name args :
  consistent loaded ->
  consistent (snd (pdf_call_tool open_pdf loaded name args)).
Proof.
  intros Hc.
  destruct (pdf_call_tool_state open_pdf loaded name args)
    as [-> | [n [tgt [-> Hcall]]]]; [exact Hc |].
  apply load_pdf_succeeded in Hcall.
  destruct Hcall as [tgt' [doc [texts [_ [_ [Hex [_ ->]]]]]]].
  apply extract_pages_entries in Hex.
  destruct Hex as [texts' [-> [Hlen _]]].
  unfold consistent. cbn. lia.
Qed.

(** Whatever calls the server has answered since it started,
    [loaded.pageCount] is the number of texts in [loaded.pages]. *)
Theorem pdf_session_consistent :
  forall (open_pdf : string -> option PdfDocument)
         (calls : list (string * PdfArgs)),
    consistent (pdf_session open_pdf loaded_init calls).
Proof.
  intros open_pdf calls.
  assert (H : forall loaded, consistent loaded ->
                             consistent (pdf_session open_pdf loaded calls)).
  { induction calls as [| [name args] rest IH]; intros loaded Hc.
    - exact Hc.
    - cbn [pdf_session]. apply IH. apply pdf_call_tool_consistent. exact Hc. }
  apply H. reflexivity.
Qed.

(** A call that ends in an error, and every [page_count] and [extract_text]
    call, leaves the loaded document as it was; the state changes only by a
    [load_pdf] that succeeds, which replaces it by the document it reports. *)
Theorem pdf_state_changes_only_on_load :
  forall (open_pdf : string -> option PdfDocument) (loaded : Loaded)
         (name : string) (args : PdfArgs),
    let out := fst (pdf_call_tool open_pdf loaded name args) in
    let loaded' := snd (pdf_call_tool open_pdf loaded name args) in
    loaded' = loaded
    \/ (name = "load_pdf"%string
        /\ exists n tgt,
             target args = Some tgt
             /\ out = inr (LoadedOk n tgt)
             /\ pageCount loaded' = n /\ source loaded' = tgt).
Proof.
  intros open_pdf loaded name args out loaded'. subst out loaded'.
  destruct (pdf_call_tool_state open_pdf loaded name args)
    as [H | [n [tgt [-> Hcall]]]]; [left; exact H | right].
  split; [reflexivity |].
  pose proof Hcall as Hs. apply load_pdf_succeeded in Hs.
  destruct Hs as [tgt' [doc [texts [Ht [_ [_ [Hp Hl]]]]]]].
  injection Hp as -> ->.
  exists (numPages doc), tgt'. rewrite Hl. rewrite Hcall.
  repeat split. exact Ht.
Qed.

(** Load, then read: after a [load_pdf] that reported [n] pages, every page
    [p] with [1 <= p <= n] is served by [extract_text] with the text of the
    document's page [p], its items joined by single spaces. *)
Theorem load_then_extract_text :
  forall (open_pdf : string -> option PdfDocument) (loaded loaded' : Loaded)
         (tgt : string) (n : nat) (p : Z),
    pdf_call_tool open_pdf loaded "load_pdf" (mkPdfArgs (Some tgt) None) =
      (inr (LoadedOk n tgt), loaded') ->
    1 <= p <= Z.of_nat n ->
    exists doc items,
      open_pdf tgt = Some doc
      /\ getPage doc (Z.to_nat p) = Some items
      /\ pdf_call_tool open_pdf loaded' "extract_text"
           (mkPdfArgs None (Some p)) =
         (inr (PageText p (page_text items)), loaded').
Proof.
  intros open_pdf loaded loaded' tgt n p Hload Hp.
  apply load_pdf_succeeded in Hload.
  destruct Hload as [tgt' [doc [texts [Ht [Hopen [Hex [Hpay ->]]]]]]].
  cbn [target] in Ht. injection Ht as <-. injection Hpay as ->.
  apply extract_pages_entries in Hex.
  destruct Hex as [texts' [-> [Hlen Hnth]]]. cbn [app] in *.
  destruct (Hnth (Z.to_nat (p - 1))) as [items [Hitems Htext]]; [lia |].
  exists doc, items. split; [exact Hopen |]. split.
  - rewrite <- Hitems. f_equal. lia.
  - rewrite call_extract_text. cbn [page pageCount pages].
    destruct (p <? 1) eqn:E1; [apply Z.ltb_lt in E1; lia |].
    destruct (numPages doc =? 0)%nat eqn:E2; [apply Nat.eqb_eq in E2; lia |].
    destruct (p >? Z.of_nat (numPages doc)) eqn:E3;
      [apply Z.gtb_lt in E3; lia |].
    rewrite Htext. reflexivity.
Qed.

(** A document of two pages for the examples below. *)
Lemma load_then_extract_text_witness :
  let doc := mkDoc 2 (fun i => if (i =? 1)%nat
                               then Some [WithStr "Hello"; WithoutStr; WithStr "world"]
                               else Some [WithStr "Bye"]) in
  let open_pdf := fun _ : string => Some doc in
  exists d items,
    open_pdf "a.pdf"%string = Some d
    /\ getPage d (Z.to_nat 1) = Some items
    /\ pdf_call_tool open_pdf (mkLoaded ["Hello  world"; "Bye"]%string 2 "a.pdf")
         "extract_text" (mkPdfArgs None (Some 1)) =
       (inr (PageText 1 (page_text items)),
        mkLoaded ["Hello  world"; "Bye"]%string 2 "a.pdf").
Proof.
  intros doc open_pdf.
  apply (load_then_extract_text open_pdf loaded_init
           (mkLoaded ["Hello  world"; "Bye"]%string 2 "a.pdf") "a.pdf" 2 1).
  - reflexivity.
  - lia.
Defined.

(** [extract_text] in a state where [pageCount] counts [pages]: a page below
    1 is rejected by the schema, before the state is looked at; with nothing
    loaded the answer is "No PDF loaded"; a page above [pageCount] is out of
    range; every page between 1 and [pageCount] is served with the stored
    text, never with the fallback for a missing entry. *)
Theorem extract_text_outcomes :
  forall (open_pdf : string -> option PdfDocument) (loaded : Loaded) (p : Z),
    consistent loaded ->
    let answer :=
      pdf_call_tool open_pdf loaded "extract_text" (mkPdfArgs None (Some p)) in
    (p < 1 -> answer = (inl PdfZodError, loaded))
    /\ (1 <= p -> pageCount loaded = 0%nat -> answer = (inl NoPdfLoaded, loaded))
    /\ (1 <= p -> pageCount loaded <> 0%nat -> Z.of_nat (pageCount loaded) < p ->
        answer = (inl (PageOutOfRange (pageCount loaded)), loaded))
    /\ (1 <= p <= Z.of_nat (pageCount loaded) ->
        exists t, nth_error (pages loaded) (Z.to_nat (p - 1)) = Some t
                  /\ answer = (inr (PageText p t), loaded)).
Proof.
  intros open_pdf loaded p Hc answer. subst answer.
  rewrite call_extract_text. cbn [page].
  repeat split.
  - intros H. apply Z.ltb_lt in H. rewrite H. reflexivity.
  - intros H1 H0.
    destruct (p <? 1) eqn:E1; [apply Z.ltb_lt in E1; lia |].
    rewrite H0. reflexivity.
  - intros H1 H0 H2.
    destruct (p <? 1) eqn:E1; [apply Z.ltb_lt in E1; lia |].
    destruct (pageCount loaded =? 0)%nat eqn:E2;
      [apply Nat.eqb_eq in E2; lia |].
    destruct (p >? Z.of_nat (pageCount loaded)) eqn:E3; [reflexivity |].
    rewrite Z.gtb_ltb in E3. apply Z.ltb_ge in E3. lia.
  - intros [H1 H2].
    destruct (p <? 1) eqn:E1; [apply Z.ltb_lt in E1; lia |].
    destruct (pageCount loaded =? 0)%nat eqn:E2;
      [apply Nat.eqb_eq in E2; lia |].
    destruct (p >? Z.of_nat (pageCount loaded)) eqn:E3;
      [apply Z.gtb_lt in E3; lia |].
    destruct (nth_error (pages loaded) (Z.to_nat (p - 1))) as [t |] eqn:En.
    + exists t. split; reflexivity.
    + apply nth_error_None in En. unfold consistent in Hc. lia.
Qed.

Lemma extract_text_outcomes_witness :
  let loaded := mkLoaded ["one"; "two"]%string 2 "a.pdf" in
  (pdf_call_tool (fun _ => None) loaded "extract_text"
                 (mkPdfArgs None (Some 3)) =
   (inl (PageOutOfRange 2), loaded))
  /\ exists t,
       nth_error (pages loaded) (Z.to_nat (2 - 1)) = Some t
       /\ pdf_call_tool (fun _ => None) loaded "extract_text"
                        (mkPdfArgs None (Some 2)) =
          (inr (PageText 2 t), loaded).
Proof.
  intros loaded. split.
  - apply (proj1 (proj2 (proj2
             (extract_text_outcomes (fun _ => None) loaded 3 eq_refl)))).
    + lia.
    + cbn. lia.
    + cbn. lia.
  - apply (proj2 (proj2 (proj2
             (extract_text_outcomes (fun _ => None) loaded 2 eq_refl)))).
    cbn. lia.
Defined.

(** Load, then count: after a [load_pdf] that reported [n] pages,
    [page_count] answers [n] when [n] is positive; a document without pages
    loads with [ok: true] and is then reported as "No PDF loaded". *)
Theorem load_then_page_count :
  forall (open_pdf : string -> option PdfDocument) (loaded loaded' : Loaded)
         (args : PdfArgs) (tgt : string) (n : nat),
    pdf_call_tool open_pdf loaded "load_pdf" args =
      (inr (LoadedOk n tgt), loaded') ->
    pdf_call_tool open_pdf loaded' "page_count" (mkPdfArgs None None) =
      (match n with
       | O => inl NoPdfLoaded
       | S _ => inr (PageCount n)
       end, loaded').
Proof.
  intros open_pdf loaded loaded' args tgt n Hload.
  apply load_pdf_succeeded in Hload.
  destruct Hload as [tgt' [doc [texts [_ [_ [_ [Hpay ->]]]]]]].
  injection Hpay as -> ->.
  rewrite call_page_count. cbn [pageCount].
  destruct (numPages doc); reflexivity.
Qed.

Lemma load_then_page_count_witness :
  pdf_call_tool (fun _ => Some (mkDoc 0 (fun _ => None)))
                (mkLoaded [] 0 "empty.pdf") "page_count" (mkPdfArgs None None) =
  (inl NoPdfLoaded, mkLoaded [] 0 "empty.pdf").
Proof.
  apply (load_then_page_count (fun _ => Some (mkDoc 0 (fun _ => None)))
           loaded_init (mkLoaded [] 0 "empty.pdf")
           (mkPdfArgs (Some "empty.pdf"%string) None) "empty.pdf" 0).
  reflexivity.
Defined.

(** ** The [askpdf] command *)







(** ** The web search server *)

(** What an answered [web_search] call guarantees: the query was not empty
    and is echoed, [num] (5 when absent) lies between 1 and 10, the API key
    is set and not empty, and the results are the first [num] organic
    results of the search API in its order, all of them when there are
    fewer, none when the API names no organic results: never more than
    [num], so never more than ten. *)
Theorem web_search_answer :
  forall (SERPAPI_KEY : option string)
         (getJson : string -> Z -> string -> option (option (list OrganicResult)))
         (name : string) (query : option string) (num_arg : option Z)
         (q : string) (results : list SearchHit),
    web_call_tool SERPAPI_KEY getJson name query num_arg = inr (q, results) ->
    let num := match num_arg with Some n => n | None => 5 end in
    name = "web_search"%string
    /\ query = Some q /\ q <> EmptyString
    /\ 1 <= num <= 10
    /\ exists apiKey organic_results,
         SERPAPI_KEY = Some apiKey /\ apiKey <> EmptyString
         /\ getJson q num apiKey = Some organic_results
         /\ let found_ := match organic_results with Some l => l | None => [] end in
            results = map (fun r => mkHit (title r) (link r) (snippet r))
                          (firstn (Z.to_nat num) found_)
            /\ Z.of_nat (List.length results) =
               Z.min num (Z.of_nat (List.length found_))
            /\ (List.length results <= 10)%nat.
Proof.
  intros KEY getJson name query num_arg q results H num.
  unfold web_call_tool in H.
  destruct (String.eqb_spec name "web_search") as [-> | _]; [| discriminate].
  cbn [negb] in H.
  destruct query as [query |]; [| discriminate].
  destruct (String.length query <? 1)%nat eqn:Eq; [discriminate |].
  assert (Hnum : 1 <= num <= 10).
  { subst num. destruct num_arg as [n |]; [| lia].
    destruct (n <? 1) eqn:E1; [discriminate |].
    destruct (n >? 10) eqn:E2; [discriminate |].
    apply Z.ltb_ge in E1. rewrite Z.gtb_ltb in E2. apply Z.ltb_ge in E2. lia. }
  destruct (match num_arg with
            | Some n => (n <? 1) || (n >? 10)
            | None => false
            end); [discriminate |].
  destruct KEY as [apiKey |]; [| discriminate].
  destruct (String.eqb_spec apiKey EmptyString) as [| Hkey]; [discriminate |].
  fold num in H.
  destruct (getJson query num apiKey) as [organic_results |] eqn:Hj;
    [| discriminate].
  injection H as <- <-.
  split; [reflexivity |]. split; [reflexivity |].
  split.
  { intros ->. cbn in Eq. discriminate. }
  split; [exact Hnum |].
  exists apiKey, organic_results.
  split; [reflexivity |]. split; [exact Hkey |]. split; [exact Hj |].
  cbv zeta. split; [reflexivity |].
  rewrite length_map, length_firstn.
  split; lia.
Qed.

Lemma web_search_answer_witness :
  let hits := [mkOrganic (Some "A"%string) (Some "http://a"%string) None;
               mkOrganic (Some "B"%string) None None] in
  let getJson := fun (_ : string) (_ : Z) (_ : string) => Some (Some hits) in
  let num := 1 in
  "web_search"%string = "web_search"%string
  /\ Some "rocq"%string = Some "rocq"%string /\ "rocq"%string <> EmptyString
  /\ 1 <= num <= 10
  /\ exists apiKey organic_results,
       Some "k"%string = Some apiKey /\ apiKey <> EmptyString
       /\ getJson "rocq"%string num apiKey = Some organic_results
       /\ let found_ := match organic_results with Some l => l | None => [] end in
          [mkHit (Some "A"%string) (Some "http://a"%string) None] =
            map (fun r => mkHit (title r) (link r) (snippet r))
                (firstn (Z.to_nat num) found_)
          /\ Z.of_nat (List.length [mkHit (Some "A"%string) (Some "http://a"%string) None]) =
             Z.min num (Z.of_nat (List.length found_))
          /\ (List.length [mkHit (Some "A"%string) (Some "http://a"%string) None] <= 10)%nat.
Proof.
  intros hits getJson num.
  apply (web_search_answer (Some "k"%string) getJson "web_search"
           (Some "rocq"%string) (Some 1) "rocq"
           [mkHit (Some "A"%string) (Some "http://a"%string) None]).
  reflexivity.
Defined.

(** ** The mail server's raw message *)

Lemma occurs_replace_char_same c d s :
  c <> d -> occurs c (replace_char c d s) = false.
Proof.
  intros Hcd. induction s as [| a s IH]; [reflexivity |].
  cbn [replace_char occurs]. rewrite IH, orb_false_r.
  destruct (Ascii.eqb_spec a c) as [-> | Hac].
  - apply Ascii.eqb_neq. congruence.
  - apply Ascii.eqb_neq. exact Hac.
Qed.

Lemma occurs_replace_char_other c c' d s :
  c <> d -> occurs c s = false -> occurs c (replace_char c' d s) = false.
Proof.
  intros Hcd. induction s as [| a s IH]; [reflexivity |].
  cbn [replace_char occurs]. intros H.
  apply orb_false_iff in H. destruct H as [Ha Hs].
  rewrite (IH Hs), orb_false_r.
  destruct (Ascii.eqb a c'); [| exact Ha].
  apply Ascii.eqb_neq. congruence.
Qed.

Lemma occurs_strip_trailing c e s :
  occurs c s = false -> occurs c (strip_trailing e s) = false.
Proof.
  induction s as [| a s IH]; [reflexivity |].
  cbn [strip_trailing occurs]. intros H.
  apply orb_false_iff in H. destruct H as [Ha Hs].
  specialize (IH Hs).
  destruct (strip_trailing e s) as [| b t].
  - destruct (Ascii.eqb a e); [reflexivity |].
    cbn [occurs]. rewrite Ha. reflexivity.
  - cbn [occurs] in *. rewrite Ha, IH. reflexivity.
Qed.

Lemma last_char_strip_trailing c s :
  last_char (strip_trailing c s) <> Some c.
Proof.
  induction s as [| a s IH]; [discriminate |].
  cbn [strip_trailing].
  destruct (strip_trailing c s) as [| b t].
  - destruct (Ascii.eqb_spec a c) as [| Hac]; [discriminate |].
    cbn [last_char]. congruence.
  - exact IH.
Qed.

(** The raw message is in the URL-safe alphabet without padding, whatever
    the recipient, subject and body: it holds no [+], no [/], and does not
    end in [=]. *)
Theorem buildMessage_url_safe :
  forall (base64_of_utf8 : string -> string) (to subject body : string),
    let raw := buildMessage base64_of_utf8 to subject body in
    occurs "+" raw = false
    /\ occurs "/" raw = false
    /\ last_char raw <> Some "="%char.
Proof.
  intros base64_of_utf8 to subject body raw. subst raw.
  unfold buildMessage. cbv zeta.
  split; [| split].
  - apply occurs_strip_trailing.
    apply occurs_replace_char_other; [discriminate |].
    apply occurs_replace_char_same. discriminate.
  - apply occurs_strip_trailing.
    apply occurs_replace_char_same. discriminate.
  - apply last_char_strip_trailing.
Qed.

(** ** The client's command line *)

Lemma occurs_app c s1 s2 :
  occurs c (s1 ++ s2) = occurs c s1 || occurs c s2.
Proof.
  induction s1 as [| a s1 IH]; [reflexivity |].
  cbn [append occurs]. rewrite IH, orb_assoc. reflexivity.
Qed.

Lemma occurs_trim_start sp c s :
  occurs c (trim_start sp s) = true -> occurs c s = true.
Proof.
  induction s as [| a s IH]; [discriminate |].
  cbn [trim_start]. destruct (sp a); [| exact (fun H => H)].
  intros H. cbn [occurs]. rewrite (IH H). apply orb_true_r.
Qed.

Lemma occurs_trim_end sp c s :
  occurs c (trim_end sp s) = true -> occurs c s = true.
Proof.
  induction s as [| a s IH]; [discriminate |].
  cbn [trim_end occurs].
  destruct (trim_end sp s) as [| b t].
  - destruct (sp a); [discriminate |].
    cbn [occurs]. rewrite orb_false_r. intros ->. reflexivity.
  - cbn [occurs] in *. intros H.
    apply orb_true_iff in H. destruct H as [-> | H]; [reflexivity |].
    rewrite (IH H). apply orb_true_r.
Qed.

Lemma occurs_trim sp c s :
  occurs c (trim sp s) = true -> occurs c s = true.
Proof.
  unfold trim. intros H.
  apply occurs_trim_start with sp. apply occurs_trim_end with sp. exact H.
Qed.

Lemma first_char_trim_start sp s a :
  first_char (trim_start sp s) = Some a -> sp a = false.
Proof.
  induction s as [| b s IH]; [discriminate |].
  cbn [trim_start]. destruct (sp b) eqn:E; [exact IH |].
  cbn [first_char]. intros H. injection H as <-. exact E.
Qed.

Lemma first_char_trim_end sp s a :
  first_char (trim_end sp s) = Some a -> first_char s = Some a.
Proof.
  destruct s as [| b s]; [discriminate |].
  cbn [trim_end]. destruct (trim_end sp s).
  - destruct (sp b); [discriminate | exact (fun H => H)].
  - exact (fun H => H).
Qed.

Lemma last_char_trim_end sp s a :
  last_char (trim_end sp s) = Some a -> sp a = false.
Proof.
  induction s as [| b s IH]; [discriminate |].
  cbn [trim_end].
  destruct (trim_end sp s) as [| b' t].
  - destruct (sp b) eqn:E; [discriminate |].
    cbn [last_char]. intros H. injection H as <-. exact E.
  - exact IH.
Qed.

Lemma trim_trimmed sp s : trimmed sp (trim sp s).
Proof.
  unfold trimmed, trim. split; intros a H.
  - apply first_char_trim_end in H. exact (first_char_trim_start _ _ _ H).
  - exact (last_char_trim_end _ _ _ H).
Qed.

Lemma split_at_nonempty c s : split_at c s <> [].
Proof.
  destruct s as [| a s]; [discriminate |].
  cbn [split_at]. destruct (split_at c s); [discriminate |].
  destruct (Ascii.eqb a c); discriminate.
Qed.

(** The pieces of [split_at c s] hold no [c], and nothing that is not in
    [s]. *)
Lemma split_at_pieces c s : forall p,
  In p (split_at c s) ->
  occurs c p = false /\ forall e, occurs e p = true -> occurs e s = true.
Proof.
  induction s as [| a s IH]; intros p Hin.
  - destruct Hin as [<- | []]. split; [reflexivity | discriminate].
  - cbn [split_at] in Hin.
    destruct (split_at c s) as [| piece pieces] eqn:Hs.
    { destruct Hin as [<- | []]. split; [reflexivity | discriminate]. }
    destruct (Ascii.eqb_spec a c) as [-> | Hac].
    + destruct Hin as [<- | Hin].
      * split; [reflexivity | discriminate].
      * destruct (IH p Hin) as [H1 H2]. split; [exact H1 |].
        intros e He. cbn [occurs]. rewrite (H2 e He). apply orb_true_r.
    + destruct Hin as [<- | Hin].
      * destruct (IH piece (or_introl eq_refl)) as [H1 H2].
        split.
        -- cbn [occurs]. rewrite H1, orb_false_r.
           apply Ascii.eqb_neq. exact Hac.
        -- intros e He. cbn [occurs] in *.
           apply orb_true_iff in He. destruct He as [-> | He];
             [reflexivity |].
           rewrite (H2 e He). apply orb_true_r.
      * destruct (IH p (or_intror Hin)) as [H1 H2]. split; [exact H1 |].
        intros e He. cbn [occurs]. rewrite (H2 e He). apply orb_true_r.
Qed.

(** The pieces of [split_runs] hold no white space. *)
Lemma split_runs_pieces sp s : forall in_run p c,
  In p (split_runs sp in_run s) -> occurs c p = true -> sp c = false.
Proof.
  induction s as [| a s IH]; intros in_run p c Hin Hc.
  - destruct Hin as [<- | []]. discriminate.
  - cbn [split_runs] in Hin. destruct (sp a) eqn:Ea.
    + destruct in_run.
      * exact (IH true p c Hin Hc).
      * destruct Hin as [<- | Hin]; [discriminate |].
        exact (IH true p c Hin Hc).
    + pose proof (IH false) as IHf.
      destruct (split_runs sp false s) as [| piece pieces] eqn:Hs.
      * destruct Hin as [<- | []]. cbn [occurs] in Hc.
        rewrite orb_false_r in Hc. apply Ascii.eqb_eq in Hc. subst c. exact Ea.
      * destruct Hin as [<- | Hin].
        -- cbn [occurs] in Hc. apply orb_true_iff in Hc.
           destruct Hc as [Hc | Hc].
           ++ apply Ascii.eqb_eq in Hc. subst c. exact Ea.
           ++ exact (IHf piece c (or_introl eq_refl) Hc).
        -- exact (IHf p c (or_intror Hin) Hc).
Qed.

Lemma occurs_concat c sep l :
  occurs c (String.concat sep l) = true ->
  occurs c sep = true \/ exists p, In p l /\ occurs c p = true.
Proof.
  induction l as [| x l IH]; [discriminate |].
  destruct l as [| y l].
  - cbn [String.concat]. intros H. right. exists x. split; [left; reflexivity | exact H].
  - change (String.concat sep (x :: y :: l))
      with (x ++ sep ++ String.concat sep (y :: l))%string.
    rewrite !occurs_app. intros H.
    apply orb_true_iff in H. destruct H as [H | H].
    + right. exists x. split; [left; reflexivity | exact H].
    + apply orb_true_iff in H. destruct H as [H | H]; [left; exact H |].
      destruct (IH H) as [Hs | [p [Hin Hp]]]; [left; exact Hs |].
      right. exists p. split; [right; exact Hin | exact Hp].
Qed.

(** The pieces of a line hold no white space, so its argument holds none but
    the spaces that join them. *)
Lemma parse_line_pieces sp line c :
  (occurs c (fst (parse_line sp line)) = true -> sp c = false)
  /\ (occurs c (snd (parse_line sp line)) = true -> sp c = true ->
      c = " "%char).
Proof.
  unfold parse_line. cbn [fst snd].
  set (pieces := split_runs sp false (trim sp line)).
  assert (Hp : forall p, In p pieces -> occurs c p = true -> sp c = false).
  { intros p Hin. exact (split_runs_pieces sp _ false p c Hin). }
  split.
  - destruct pieces as [| p ps]; [discriminate |].
    cbn [hd]. apply Hp. left. reflexivity.
  - intros Hc Hsp. apply occurs_concat in Hc.
    destruct Hc as [Hc | [p [Hin Hc]]].
    + cbn [occurs] in Hc. rewrite orb_false_r in Hc.
      apply Ascii.eqb_eq in Hc. symmetry. exact Hc.
    + assert (Hin' : In p pieces).
      { destruct pieces as [| p0 ps]; [destruct Hin | right; exact Hin]. }
      rewrite (Hp p Hin' Hc) in Hsp. discriminate.
Qed.

(** However a line is spaced, the command word holds no white space, and the
    only white space in the argument is the space character: tabs, line
    breaks and the like never reach a tool. *)
Theorem parse_line_white_space :
  forall (is_space : ascii -> bool) (line : string) (c : ascii),
    let cmd := fst (parse_line is_space line) in
    let arg := snd (parse_line is_space line) in
    (occurs c cmd = true -> is_space c = false)
    /\ (occurs c arg = true -> is_space c = true -> c = " "%char).
Proof.
  intros sp line c cmd arg. subst cmd arg. apply parse_line_pieces.
Qed.

(** A field of the mail commands, after the split at [|] and the trim. *)
Lemma mail_field sp arg i :
  let field := nth i (map (trim sp) (split_at "|" arg)) EmptyString in
  occurs "|" field = false
  /\ trimmed sp field
  /\ forall e, occurs e field = true -> occurs e arg = true.
Proof.
  intros field. subst field.
  destruct (nth_in_or_default i (map (trim sp) (split_at "|" arg)) EmptyString)
    as [Hin | ->].
  - apply in_map_iff in Hin. destruct Hin as [p [<- Hin]].
    destruct (split_at_pieces _ _ p Hin) as [H1 H2].
    split; [| split].
    + destruct (occurs "|" (trim sp p)) eqn:E; [| reflexivity].
      apply occurs_trim in E. congruence.
    + apply trim_trimmed.
    + intros e He. apply H2. exact (occurs_trim _ _ _ He).
  - split; [reflexivity |]. split; [| discriminate].
    split; discriminate.
Qed.

(** When [emaildraft] or [emailsend] calls the mail tool, none of the three
    fields is empty, none holds a [|] (whatever follows a third [|] on the
    line is dropped), and none starts or ends with white space. *)
Theorem emaildraft_request_fields :
  forall (is_space : ascii -> bool) (arg to subject body : string),
    emaildraft is_space arg = MailRequest to subject body ->
    (to <> EmptyString /\ subject <> EmptyString /\ body <> EmptyString)
    /\ (occurs "|" to = false /\ occurs "|" subject = false
        /\ occurs "|" body = false)
    /\ (trimmed is_space to /\ trimmed is_space subject
        /\ trimmed is_space body).
Proof.
  intros sp arg to subject body H. unfold emaildraft in H. cbv zeta in H.
  destruct (String.eqb_spec (nth 0 (map (trim sp) (split_at "|" arg)) EmptyString)
              EmptyString) as [| H0]; [discriminate |].
  destruct (String.eqb_spec (nth 1 (map (trim sp) (split_at "|" arg)) EmptyString)
              EmptyString) as [| H1]; [discriminate |].
  destruct (String.eqb_spec (nth 2 (map (trim sp) (split_at "|" arg)) EmptyString)
              EmptyString) as [| H2]; [discriminate |].
  cbn [orb] in H. injection H as <- <- <-.
  destruct (mail_field sp arg 0) as [A0 [B0 _]].
  destruct (mail_field sp arg 1) as [A1 [B1 _]].
  destruct (mail_field sp arg 2) as [A2 [B2 _]].
  split; [split; [exact H0 | split; [exact H1 | exact H2]] |].
  split; [split; [exact A0 | split; [exact A1 | exact A2]] |].
  split; [exact B0 | split; [exact B1 | exact B2]].
Qed.

Lemma emaildraft_request_fields_witness :
  let sp := fun a : ascii => Ascii.eqb a " " in
  ("x@y.z"%string <> EmptyString /\ "Hi there"%string <> EmptyString
   /\ "body"%string <> EmptyString)
  /\ (occurs "|" "x@y.z" = false /\ occurs "|" "Hi there" = false
      /\ occurs "|" "body" = false)
  /\ (trimmed sp "x@y.z" /\ trimmed sp "Hi there" /\ trimmed sp "body").
Proof.
  intros sp.
  apply (emaildraft_request_fields sp "x@y.z| Hi there |body | more"
           "x@y.z" "Hi there" "body").
  reflexivity.
Defined.

(** From the line to the mail tool: the white space in the fields the tool
    receives is the space character only, so a recipient, subject or body
    never carries a line break. *)
Theorem mail_fields_white_space :
  forall (is_space : ascii -> bool) (line to subject body : string) (c : ascii),
    emaildraft is_space (snd (parse_line is_space line)) =
      MailRequest to subject body ->
    occurs c to || occurs c subject || occurs c body = true ->
    is_space c = true ->
    c = " "%char.
Proof.
  intros sp line to subject body c H Hc Hsp.
  destruct (parse_line_pieces sp line c) as [_ Harg].
  apply Harg; [| exact Hsp].
  unfold emaildraft in H. cbv zeta in H.
  destruct (_ || _ || _) in H; [discriminate |].
  injection H as <- <- <-.
  destruct (mail_field sp (snd (parse_line sp line)) 0) as [_ [_ C0]].
  destruct (mail_field sp (snd (parse_line sp line)) 1) as [_ [_ C1]].
  destruct (mail_field sp (snd (parse_line sp line)) 2) as [_ [_ C2]].
  apply orb_true_iff in Hc. destruct Hc as [Hc | Hc];
    [apply orb_true_iff in Hc; destruct Hc as [Hc | Hc] |].
  - exact (C0 c Hc).
  - exact (C1 c Hc).
  - exact (C2 c Hc).
Qed.

Lemma mail_fields_white_space_witness :
  " "%char = " "%char.
Proof.
  apply (mail_fields_white_space
           (fun a => Ascii.eqb a " " || Ascii.eqb a "009")
           (String "009" "emaildraft  x@y.z|Hi" ++ String "009" (String "009" "there|body"))%string
           "x@y.z" "Hi there" "body" " ").
  - reflexivity.
  - reflexivity.
  - reflexivity.
Defined.

Lemma parse_line_white_space_witness :
  let sp := fun a : ascii => Ascii.eqb a " " || Ascii.eqb a "009" in
  let line := ("  text" ++ String "009" "2  3 ")%string in
  sp "t"%char = false /\ " "%char = " "%char.
Proof.
  intros sp line. split.
  - apply (proj1 (parse_line_white_space sp line "t"%char)). reflexivity.
  - apply (proj2 (parse_line_white_space sp line " "%char)); reflexivity.
Defined.

(** ** The handler's arithmetic *)

Lemma round_magnitude_small a : a <= 2 ^ 53 -> round_magnitude a = a.
Proof.
  intros H. unfold round_magnitude.
  destruct (a <? 2 ^ 53) eqn:E; [reflexivity |].
  apply Z.ltb_ge in E. assert (Ha : a = 2 ^ 53) by lia. subst a. reflexivity.
Qed.

(** Beyond [2^53] the rounded magnitude is a significand of at least [2^52]
    times a power of two, and no less than the magnitude rounded down. *)
Lemma round_magnitude_large a :
  2 ^ 53 <= a ->
  exists e q',
    1 <= e /\ 2 ^ 52 <= q' /\ a / 2 ^ e <= q'
    /\ round_magnitude a = q' * 2 ^ e /\ Z.log2 a = 52 + e.
Proof.
  intros H. unfold round_magnitude.
  destruct (a <? 2 ^ 53) eqn:E.
  - apply Z.ltb_lt in E. lia.
  - clear E.
    assert (Hlog : 53 <= Z.log2 a).
    { rewrite <- (Z.log2_pow2 53) by lia. apply Z.log2_le_mono. exact H. }
    assert (Hpos : 0 < a) by (pose proof (Z.pow_pos_nonneg 2 53); lia).
    destruct (Z.log2_spec a Hpos) as [Hlo _].
    set (e := Z.log2 a - 52) in *.
    assert (He : 1 <= e) by (unfold e; lia).
    assert (Hpe : 0 < 2 ^ e) by (apply Z.pow_pos_nonneg; lia).
    assert (Hq : 2 ^ 52 <= a / 2 ^ e).
    { apply Z.div_le_lower_bound; [exact Hpe |].
      rewrite <- Z.pow_add_r by lia.
      replace (e + 52) with (Z.log2 a) by (unfold e; lia). exact Hlo. }
    cbv zeta.
    set (q := a / 2 ^ e) in *.
    exists e.
    exists (if a mod 2 ^ e <? 2 ^ (e - 1) then q
            else if 2 ^ (e - 1) <? a mod 2 ^ e then q + 1
            else if Z.even q then q else q + 1).
    split; [exact He |].
    split; [| split; [| split; [reflexivity | unfold e; lia]]].
    + destruct (a mod 2 ^ e <? 2 ^ (e - 1)); [lia |].
      destruct (2 ^ (e - 1) <? a mod 2 ^ e); [lia |].
      destruct (Z.even q); lia.
    + destruct (a mod 2 ^ e <? 2 ^ (e - 1)); [lia |].
      destruct (2 ^ (e - 1) <? a mod 2 ^ e); [lia |].
      destruct (Z.even q); lia.
Qed.

Lemma round_magnitude_ge a : 2 ^ 53 <= a -> 2 ^ 53 <= round_magnitude a.
Proof.
  intros H.
  destruct (round_magnitude_large a H) as [e [q' [He [Hq' [_ [-> _]]]]]].
  assert (2 ^ 1 <= 2 ^ e) by (apply Z.pow_le_mono_r; lia).
  change (2 ^ 53) with (2 ^ 52 * 2 ^ 1).
  apply Z.mul_le_mono_nonneg; lia.
Qed.

Lemma round_magnitude_gt a :
  2 ^ 53 + 2 <= a -> 2 ^ 53 + 2 <= round_magnitude a.
Proof.
  intros H.
  destruct (round_magnitude_large a) as [e [q' [He [Hq' [Hq [-> Hlog]]]]]];
    [lia |].
  destruct (Z.eq_dec e 1) as [-> | Hne].
  - change (2 ^ 1) with 2 in *.
    assert (2 ^ 52 + 1 <= a / 2) by (apply Z.div_le_lower_bound; lia).
    lia.
  - assert (2 ^ 2 <= 2 ^ e) by (apply Z.pow_le_mono_r; lia).
    assert (2 ^ 52 * 2 ^ 2 <= q' * 2 ^ e)
      by (apply Z.mul_le_mono_nonneg; lia).
    change (2 ^ 52 * 2 ^ 2) with (2 ^ 54) in *. lia.
Qed.

Lemma fl_pos z : 0 < z -> fl z = round_magnitude z.
Proof.
  intros H. unfold fl. rewrite Z.sgn_pos, Z.abs_eq by lia. lia.
Qed.

Lemma fl_neg z : z < 0 -> fl z = - round_magnitude (- z).
Proof.
  intros H. unfold fl. rewrite Z.sgn_neg, Z.abs_neq by lia. lia.
Qed.

(** Whole numbers up to [2^53] in magnitude are doubles. *)
Lemma fl_exact z : - 2 ^ 53 <= z <= 2 ^ 53 -> fl z = z.
Proof.
  intros H. destruct (Z.lt_trichotomy z 0) as [Hz | [-> | Hz]].
  - rewrite fl_neg, round_magnitude_small by lia. lia.
  - reflexivity.
  - rewrite fl_pos, round_magnitude_small by lia. reflexivity.
Qed.

Lemma fl_ge z : 2 ^ 53 <= z -> 2 ^ 53 <= fl z.
Proof.
  intros H. rewrite fl_pos by lia. apply round_magnitude_ge. exact H.
Qed.

Lemma fl_gt z : 2 ^ 53 + 2 <= z -> 2 ^ 53 + 2 <= fl z.
Proof.
  intros H. rewrite fl_pos by lia. apply round_magnitude_gt. exact H.
Qed.

Lemma fl_le_neg z : z <= - 2 ^ 53 -> fl z <= - 2 ^ 53.
Proof.
  intros H. rewrite fl_neg by lia.
  pose proof (round_magnitude_ge (- z)). lia.
Qed.

(** A rounded number below [2^53] in magnitude was not rounded. *)
Lemma fl_in_range z : - 2 ^ 53 < fl z < 2 ^ 53 -> fl z = z.
Proof.
  intros H.
  destruct (Z_le_gt_dec (2 ^ 53) z) as [Hhi | Hhi];
    [pose proof (fl_ge z Hhi); lia |].
  destruct (Z_le_gt_dec z (- 2 ^ 53)) as [Hlo | Hlo];
    [pose proof (fl_le_neg z Hlo); lia |].
  apply fl_exact. lia.
Qed.

Lemma double_overflow_far : 2 ^ 64 < DOUBLE_OVERFLOW.
Proof. reflexivity. Qed.

(** A duration whose milliseconds fit 53 bits is converted exactly. *)
Lemma durMs_js_exact d :
  1 <= d -> in_ms d <= 2 ^ 53 -> durMs_js d = Finite (in_ms d).
Proof.
  intros Hd H. unfold in_ms in H. unfold durMs_js, js_times, in_ms.
  pose proof double_overflow_far as Hov.
  assert (Hbig : 2 ^ 53 < 2 ^ 64) by reflexivity.
  destruct (d * 60 >=? DOUBLE_OVERFLOW) eqn:E1; [apply geb_ge in E1; lia |].
  rewrite (fl_exact (d * 60)) by lia.
  destruct (d * 60 * 1000 >=? DOUBLE_OVERFLOW) eqn:E2;
    [apply geb_ge in E2; lia |].
  rewrite fl_exact by lia. reflexivity.
Qed.

(** A longer duration is converted to more than [2^53] milliseconds, or to
    [Infinity]. *)
Lemma durMs_js_large d D' :
  1 <= d -> 2 ^ 53 < in_ms d -> durMs_js d = Finite D' -> 2 ^ 53 < D'.
Proof.
  intros Hd H. unfold in_ms in H. unfold durMs_js, js_times.
  destruct (d * 60 >=? DOUBLE_OVERFLOW); [discriminate |].
  destruct (fl (d * 60) * 1000 >=? DOUBLE_OVERFLOW); [discriminate |].
  intros E. injection E as <-.
  assert (Hm : 2 ^ 53 + 2 <= fl (d * 60) * 1000).
  { destruct (Z_le_gt_dec (d * 60) (2 ^ 53)) as [Hs | Hl].
    - rewrite fl_exact by lia. lia.
    - pose proof (fl_ge (d * 60)). lia. }
  pose proof (fl_gt _ Hm). lia.
Qed.

Lemma durMs_js_positive d D' :
  1 <= d -> durMs_js d = Finite D' -> 0 < D'.
Proof.
  intros Hd E.
  destruct (Z_le_gt_dec (in_ms d) (2 ^ 53)) as [Hs | Hl].
  - rewrite durMs_js_exact in E by assumption. injection E as <-.
    unfold in_ms. lia.
  - assert (H53 : 2 ^ 53 < in_ms d) by lia.
    pose proof (durMs_js_large d D' Hd H53 E). lia.
Qed.

(** A test that passed: the gap is at least the converted duration, unless
    both exceed [2^53]. *)
Lemma js_ge_sound x D' :
  js_ge (fl x) (Finite D') = true ->
  0 < D' ->
  D' <= 2 ^ 53 \/ x <= 2 ^ 53 ->
  D' <= x.
Proof.
  cbn [js_ge]. intros H Hpos Hex. apply geb_ge in H.
  destruct (Z_le_gt_dec x (- 2 ^ 53)) as [Hlo | Hlo];
    [pose proof (fl_le_neg x Hlo); lia |].
  destruct (Z_le_gt_dec x (2 ^ 53)) as [Hhi | Hhi].
  - rewrite fl_exact in H by lia. lia.
  - lia.
Qed.

(** A gap shorter than the duration and no longer than [2^53] fails the
    test. *)
Lemma js_ge_fails x d :
  1 <= d -> x < in_ms d -> x <= 2 ^ 53 ->
  js_ge (fl x) (durMs_js d) = false.
Proof.
  intros Hd Hx H53.
  destruct (durMs_js d) as [D' |] eqn:E; [| reflexivity].
  cbn [js_ge]. apply geb_lt.
  pose proof (durMs_js_positive d D' Hd E) as Hpos.
  assert (HD : x < D').
  { destruct (Z_le_gt_dec (in_ms d) (2 ^ 53)) as [Hs | Hl].
    - rewrite durMs_js_exact in E by assumption. injection E as <-. exact Hx.
    - assert (Hl' : 2 ^ 53 < in_ms d) by lia.
      pose proof (durMs_js_large d D' Hd Hl' E). lia. }
  destruct (Z_le_gt_dec x (- 2 ^ 53)) as [Hlo | Hlo];
    [pose proof (fl_le_neg x Hlo); lia |].
  rewrite fl_exact by lia. exact HD.
Qed.

(** The handler's test is the exact one, unless both the gap and the
    duration exceed [2^53]. *)
Lemma js_ge_exact x d :
  1 <= d ->
  in_ms d <= 2 ^ 53 \/ x <= 2 ^ 53 ->
  js_ge (fl x) (durMs_js d) = (x >=? in_ms d).
Proof.
  intros Hd Hex.
  destruct (x >=? in_ms d) eqn:E; [apply geb_ge in E | apply geb_lt in E].
  - assert (Hs : in_ms d <= 2 ^ 53) by lia.
    rewrite durMs_js_exact by assumption. cbn [js_ge]. apply geb_ge.
    destruct (Z_le_gt_dec x (2 ^ 53)) as [Hhi | Hhi].
    + rewrite fl_exact; [lia |]. unfold in_ms in *. lia.
    + pose proof (fl_ge x). lia.
  - destruct Hex as [Hs | Hx]; [| apply js_ge_fails; assumption].
    apply js_ge_fails; [exact Hd | exact E | lia].
Qed.

(** ** The scan in the handler's arithmetic *)

Lemma js_scan_nil cursor endWin durMs tz :
  js_scan [] cursor endWin durMs tz =
  if js_ge (fl (endWin - cursor)) durMs then js_found cursor durMs tz
  else Content (notFound tz).
Proof. reflexivity. Qed.

Lemma js_scan_cons b rest cursor endWin durMs tz :
  js_scan (b :: rest) cursor endWin durMs tz =
  if js_ge (fl (start b - cursor)) durMs then js_found cursor durMs tz
  else js_scan rest (Z.max cursor (end_ b)) endWin durMs tz.
Proof. reflexivity. Qed.

(** A slot that was returned: it starts at the cursor, its end is the
    rounded sum and a time value. *)
Lemma js_found_slot cursor D tz s e tz' :
  js_found cursor (Finite D) tz = Content (mkResult (Some s) (Some e) tz') ->
  s = cursor /\ e = cursor + D /\ tz' = tz.
Proof.
  unfold js_found, toISOString.
  destruct (Z.abs cursor <=? MAX_TIME); [| discriminate].
  destruct (Z.abs (fl (cursor + D)) <=? MAX_TIME) eqn:E; [| discriminate].
  intros H. injection H as <- <- <-.
  split; [reflexivity |]. split; [| reflexivity].
  apply fl_in_range. apply Z.leb_le in E. unfold MAX_TIME in E.
  assert (Hm : 8640000000000000 < 2 ^ 53) by reflexivity. lia.
Qed.

Lemma js_found_not_null cursor durMs tz tz' :
  js_found cursor durMs tz <> Content (notFound tz').
Proof.
  unfold js_found, notFound.
  destruct (toISOString cursor); [| discriminate].
  destruct durMs as [D |]; [| discriminate].
  destruct (toISOString (fl (cursor + D))); discriminate.
Qed.

(** Within the time values, and with a duration that fits, the slot is
    rendered as it is computed in exact arithmetic. *)
Lemma js_found_exact cursor hi d tz :
  time_value cursor -> time_value hi ->
  1 <= d -> in_ms d <= 2 ^ 53 -> in_ms d <= hi - cursor ->
  js_found cursor (durMs_js d) tz = Content (found cursor (in_ms d) tz).
Proof.
  unfold time_value, MAX_TIME. intros Hc Hh Hd Hs Hx.
  rewrite durMs_js_exact by assumption.
  assert (Hpos : 0 < in_ms d) by (unfold in_ms; lia).
  assert (Hm : 8640000000000000 < 2 ^ 53) by reflexivity.
  unfold js_found, toISOString, MAX_TIME.
  destruct (Z.abs cursor <=? 8640000000000000) eqn:E1;
    [| apply Z.leb_gt in E1; lia].
  rewrite fl_exact by lia.
  destruct (Z.abs (cursor + in_ms d) <=? 8640000000000000) eqn:E2;
    [reflexivity | apply Z.leb_gt in E2; lia].
Qed.

(** With an infinite duration no test passes. *)
Lemma js_scan_infinite busy : forall cursor endWin tz,
  js_scan busy cursor endWin PosInfinity tz = Content (notFound tz).
Proof.
  induction busy as [| b rest IH]; intros cursor endWin tz.
  - reflexivity.
  - rewrite js_scan_cons. cbn [js_ge]. apply IH.
Qed.

(** Where a returned slot comes from: the test passed at an interval, all
    intervals before it ending by the slot's start, or after the last
    interval. *)
Lemma js_scan_slot busy : forall cursor endWin D tz s e tz',
  js_scan busy cursor endWin (Finite D) tz =
    Content (mkResult (Some s) (Some e) tz') ->
  cursor <= s /\ e = s + D /\ tz' = tz
  /\ ((exists l1 b l2,
         busy = l1 ++ b :: l2
         /\ Forall (fun b' => end_ b' <= s) l1
         /\ js_ge (fl (start b - s)) (Finite D) = true)
      \/ (Forall (fun b' => end_ b' <= s) busy
          /\ js_ge (fl (endWin - s)) (Finite D) = true)).
Proof.
  induction busy as [| b rest IH]; intros cursor endWin D tz s e tz' H.
  - rewrite js_scan_nil in H.
    destruct (js_ge (fl (endWin - cursor)) (Finite D)) eqn:E;
      [| discriminate].
    apply js_found_slot in H. destruct H as [-> [-> ->]].
    split; [lia |]. split; [reflexivity |]. split; [reflexivity |].
    right. split; [apply Forall_nil | exact E].
  - rewrite js_scan_cons in H.
    destruct (js_ge (fl (start b - cursor)) (Finite D)) eqn:E.
    + apply js_found_slot in H. destruct H as [-> [-> ->]].
      split; [lia |]. split; [reflexivity |]. split; [reflexivity |].
      left. exists [], b, rest.
      split; [reflexivity |]. split; [apply Forall_nil | exact E].
    + apply IH in H. destruct H as [Hc [He [Htz Hwhere]]].
      split; [lia |]. split; [exact He |]. split; [exact Htz |].
      destruct Hwhere as [[l1 [b0 [l2 [-> [Hl1 Ht]]]]] | [Hall Ht]].
      * left. exists (b :: l1), b0, l2.
        split; [reflexivity |]. split; [| exact Ht].
        apply Forall_cons; [lia | exact Hl1].
      * right. split; [| exact Ht].
        apply Forall_cons; [lia | exact Hall].
Qed.

(** A call that returned a slot passed the schema with a finite duration of
    more than nothing. *)
Lemma calendar_find_free_js_slot busy timeMin timeMax d tz s e tz' :
  calendar_find_free_js busy timeMin timeMax d tz =
    Content (mkResult (Some s) (Some e) tz') ->
  1 <= d
  /\ exists D, durMs_js d = Finite D /\ 0 < D
               /\ js_scan busy timeMin timeMax (Finite D) tz =
                  Content (mkResult (Some s) (Some e) tz').
Proof.
  unfold calendar_find_free_js.
  destruct (d <? 1) eqn:Ed; [discriminate |]. apply Z.ltb_ge in Ed.
  intros H. split; [exact Ed |].
  destruct (durMs_js d) as [D |] eqn:ED.
  - exists D. split; [reflexivity |].
    split; [exact (durMs_js_positive d D Ed ED) | exact H].
  - rewrite js_scan_infinite in H. discriminate.
Qed.

(** In the range where nothing is rounded, the handler's arithmetic gives
    what exact arithmetic gives. *)
Lemma js_scan_exact lo endWin d tz busy : forall cursor,
  1 <= d ->
  lo <= cursor -> time_value cursor -> time_value endWin ->
  Forall (fun b => time_value (start b) /\ time_value (end_ b)) busy ->
  in_ms d <= 2 ^ 53
  \/ (endWin - lo <= 2 ^ 53 /\ Forall (fun b => start b - lo <= 2 ^ 53) busy) ->
  js_scan busy cursor endWin (durMs_js d) tz =
  Content (scan busy cursor endWin (in_ms d) tz).
Proof.
  induction busy as [| b rest IH]; intros cursor Hd Hlo Hc He Hall Hex.
  - assert (Hx : in_ms d <= 2 ^ 53 \/ endWin - cursor <= 2 ^ 53).
    { destruct Hex as [H | [H _]]; [left; exact H | right; lia]. }
    rewrite js_scan_nil, scan_nil.
    rewrite js_ge_exact by assumption.
    destruct (endWin - cursor >=? in_ms d) eqn:E; [| reflexivity].
    apply geb_ge in E. apply (js_found_exact cursor endWin); try assumption;
      [| lia].
    destruct Hx; lia.
  - apply Forall_cons_iff in Hall. destruct Hall as [[Hbs Hbe] Hrest].
    assert (Hx : in_ms d <= 2 ^ 53 \/ start b - cursor <= 2 ^ 53).
    { destruct Hex as [H | [_ H]]; [left; exact H | right].
      apply Forall_cons_iff in H. lia. }
    rewrite js_scan_cons, scan_cons.
    rewrite js_ge_exact by assumption.
    destruct (start b - cursor >=? in_ms d) eqn:E.
    + apply geb_ge in E. apply (js_found_exact cursor (start b)); try assumption;
        [| lia].
      destruct Hx; lia.
    + apply IH; try assumption.
      * lia.
      * unfold time_value in *. lia.
      * destruct Hex as [H | [H1 H2]]; [left; exact H | right].
        apply Forall_cons_iff in H2. split; [exact H1 | apply H2].
Qed.

(** ** The specified pass, the empty list and the window, in the handler's
    arithmetic *)

Lemma findFreeSlot_js_exact busy w duration tz :
  1 <= duration ->
  time_values busy w ->
  window_unrounded w duration ->
  starts_unrounded busy w duration ->
  findFreeSlot_js busy w duration tz =
  Content (scan busy (windowStart w) (windowEnd w) (in_ms duration) tz).
Proof.
  intros Hd [Hws [Hwe Hall]] Hw Hs.
  unfold findFreeSlot_js, calendar_find_free_js.
  destruct (duration <? 1) eqn:E; [apply Z.ltb_lt in E; lia |].
  apply (js_scan_exact (windowStart w)); try assumption; [lia |].
  destruct Hw as [Hw | Hw]; [left; exact Hw |].
  destruct Hs as [Hs | Hs]; [left; exact Hs |].
  right. split; assumption.
Qed.

(** C1, as the handler has it. For every duration of at least one minute,
    every window and every busy list whose instants are time values, such
    that no test is rounded (the duration fits 53 bits of milliseconds, or
    the window's end and every interval's start lie no more than 2^53 ms
    after the window's start), the handler returns the payload of the
    specified single forward pass: the cursor starts at [windowStart]; an
    interval whose start leaves a gap of at least the duration after the
    cursor ends the pass with [{cursor, cursor + duration}], any other
    interval moves the cursor to [max(cursor, interval.end)]; after the
    last interval the gap up to [windowEnd] is tried, and the pass ends in
    "not found" when it is too short. *)
Theorem findFreeSlot_js_is_specified_pass :
  forall (busy : list BusyInterval) (w : SearchWindow) (duration : Z)
         (tz : string),
    1 <= duration ->
    time_values busy w ->
    window_unrounded w duration ->
    starts_unrounded busy w duration ->
    findFreeSlot_js busy w duration tz =
    Content (payload (findFreeSlot_spec busy w duration) tz).
Proof.
  intros busy w duration tz Hd Ht Hw Hs.
  rewrite findFreeSlot_js_exact by assumption.
  f_equal. unfold findFreeSlot_spec. apply scan_fold_visit.
Qed.

Lemma findFreeSlot_js_is_specified_pass_witness :
  findFreeSlot_js [mkBusy 0 5400000] (mkWindow 0 7200000) 30 "UTC" =
  Content (payload (findFreeSlot_spec [mkBusy 0 5400000]
                      (mkWindow 0 7200000) 30) "UTC").
Proof.
  apply (findFreeSlot_js_is_specified_pass
           [mkBusy 0 5400000] (mkWindow 0 7200000) 30 "UTC").
  - lia.
  - unfold time_values, time_value, MAX_TIME. cbn [windowStart windowEnd].
    split; [lia | split; [lia |]].
    apply Forall_cons; [cbn; lia | apply Forall_nil].
  - left. unfold in_ms. cbn. lia.
  - left. unfold in_ms. cbn. lia.
Defined.

(** The claim C1 as it is written fails where the handler rounds: window
    [[-6e15, 6e15 - 1]] (ms), duration 2e11 minutes, no busy interval. The
    window is one millisecond too short, so the specified pass ends in "not
    found"; the handler's difference rounds up to the duration and it
    returns the slot [[-6e15, 6e15]]. *)
Lemma findFreeSlot_js_rounds_to_a_slot :
  let w := mkWindow (-6000000000000000) 5999999999999999 in
  findFreeSlot_spec [] w 200000000000 = None
  /\ findFreeSlot_js [] w 200000000000 "UTC" =
     Content (mkResult (Some (-6000000000000000)) (Some 6000000000000000) "UTC")
  /\ findFreeSlot_js [] w 200000000000 "UTC" <>
     Content (payload (findFreeSlot_spec [] w 200000000000) "UTC").
Proof.
  cbv zeta. split; [reflexivity |]. split; [reflexivity |].
  intros H. vm_compute in H. discriminate.
Qed.

(** C7, as the handler has it. For every duration of at least one minute
    and every window whose bounds are time values, such that the test is not
    rounded (the duration fits 53 bits of milliseconds, or the window is no
    longer than 2^53 ms), the handler on the empty busy list returns the
    slot [{windowStart, windowStart + duration}] when
    [windowEnd - windowStart >= duration], and "not found" otherwise. *)
Theorem findFreeSlot_js_empty_busy :
  forall (w : SearchWindow) (duration : Z) (tz : string),
    1 <= duration ->
    time_value (windowStart w) -> time_value (windowEnd w) ->
    window_unrounded w duration ->
    findFreeSlot_js [] w duration tz =
    Content (if windowEnd w - windowStart w >=? in_ms duration
             then mkResult (Some (windowStart w))
                           (Some (windowStart w + in_ms duration)) tz
             else mkResult None None tz).
Proof.
  intros w duration tz Hd Hws Hwe Hw.
  rewrite findFreeSlot_js_exact.
  - rewrite scan_nil.
    destruct (windowEnd w - windowStart w >=? in_ms duration); reflexivity.
  - exact Hd.
  - split; [exact Hws | split; [exact Hwe | apply Forall_nil]].
  - exact Hw.
  - right. apply Forall_nil.
Qed.

Lemma findFreeSlot_js_empty_busy_witness :
  findFreeSlot_js [] (mkWindow 0 7200000) 30 "UTC" =
  Content (if 7200000 - 0 >=? in_ms 30
           then mkResult (Some 0) (Some (0 + in_ms 30)) "UTC"
           else mkResult None None "UTC").
Proof.
  apply (findFreeSlot_js_empty_busy (mkWindow 0 7200000) 30 "UTC").
  - lia.
  - unfold time_value, MAX_TIME. cbn. lia.
  - unfold time_value, MAX_TIME. cbn. lia.
  - left. unfold in_ms. cbn. lia.
Defined.

(** The claim C7 as it is written fails where the handler rounds: window
    [[-8.64e15 + 1, 8.64e15]] (ms), duration 2.88e11 minutes, no busy
    interval. The window is one millisecond shorter than the duration, so
    the claim says "not found"; the handler's difference rounds up to the
    duration, the slot's end is past the last time value and the call ends
    in a RangeError. *)
Lemma findFreeSlot_js_empty_busy_throws :
  let w := mkWindow (-8639999999999999) 8640000000000000 in
  windowEnd w - windowStart w < in_ms 288000000000
  /\ findFreeSlot_js [] w 288000000000 "UTC" = RangeError
  /\ findFreeSlot_js [] w 288000000000 "UTC" <>
     Content (mkResult None None "UTC").
Proof.
  cbv zeta. split; [reflexivity |]. split; [reflexivity |].
  intros H. vm_compute in H. discriminate.
Qed.

(** C3, as the handler has it. When the handler returns a slot,
    [slotStart >= windowStart], for every busy list; and
    [slotEnd <= windowEnd] when every busy interval starts no later than
    [windowEnd] and the test is not rounded (the duration fits 53 bits of
    milliseconds, or the window is no longer than 2^53 ms). *)
Theorem findFreeSlot_js_within_window :
  forall (busy : list BusyInterval) (w : SearchWindow) (duration : Z)
         (tz : string) (s e : Z),
    findFreeSlot_js busy w duration tz =
      Content (mkResult (Some s) (Some e) tz) ->
    s >= windowStart w
    /\ (Forall (starts_in_time w) busy ->
        window_unrounded w duration ->
        e <= windowEnd w).
Proof.
  intros busy w duration tz s e H.
  unfold findFreeSlot_js in H.
  apply calendar_find_free_js_slot in H.
  destruct H as [Hd [D [HD [Hpos H]]]].
  apply js_scan_slot in H. destruct H as [Hs [-> [_ Hwhere]]].
  split; [lia |].
  intros Hall Hw.
  assert (Hex : forall x, x <= windowEnd w - windowStart w ->
                          D <= 2 ^ 53 \/ x <= 2 ^ 53).
  { intros x Hx. destruct Hw as [Hw | Hw]; [left | right; lia].
    rewrite durMs_js_exact in HD by assumption. injection HD as <-. exact Hw. }
  destruct Hwhere as [[l1 [b [l2 [-> [_ Ht]]]]] | [_ Ht]].
  - assert (Hb : start b <= windowEnd w).
    { rewrite Forall_forall in Hall. apply Hall.
      apply in_or_app. right. left. reflexivity. }
    apply js_ge_sound in Ht; [lia | exact Hpos | apply Hex; lia].
  - apply js_ge_sound in Ht; [lia | exact Hpos | apply Hex; lia].
Qed.

Lemma findFreeSlot_js_within_window_witness :
  5400000 >= 0 /\ 7200000 <= 7200000.
Proof.
  destruct (findFreeSlot_js_within_window
              [mkBusy 0 5400000] (mkWindow 0 7200000) 30 "UTC"
              5400000 7200000 eq_refl) as [Hs He].
  split; [exact Hs |].
  apply He.
  - unfold starts_in_time. apply Forall_cons; [cbn; lia | apply Forall_nil].
  - left. unfold in_ms. cbn. lia.
Defined.

(** The claim C3 as it is written fails in two ways. An interval that starts
    after the window ends lets the loop return a slot that ends after the
    window: window [[0, 20]], duration 30, busy [[200, 210]] (minutes) gives
    the slot [[0, 30]]. And a rounded test does: window
    [[-6e15, 6e15 - 1]] (ms), duration 2e11 minutes, no busy interval gives
    a slot that ends one millisecond after the window. *)
Lemma findFreeSlot_js_slot_past_window :
  (let w := mkWindow 0 1200000 in
   findFreeSlot_js [mkBusy 12000000 12600000] w 30 "UTC" =
     Content (mkResult (Some 0) (Some 1800000) "UTC")
   /\ ~ (1800000 <= windowEnd w))
  /\ (let w := mkWindow (-6000000000000000) 5999999999999999 in
      findFreeSlot_js [] w 200000000000 "UTC" =
        Content (mkResult (Some (-6000000000000000))
                          (Some 6000000000000000) "UTC")
      /\ ~ (6000000000000000 <= windowEnd w)).
Proof.
  cbv zeta. split; (split; [reflexivity | cbn; lia]).
Qed.

(** ** Windows without room, free slots and the time zone, in the handler's
    arithmetic *)

(** From a cursor at or after [lo], a window that ends by [lo] and intervals
    that start too soon after [lo] never pass a test. *)
Lemma js_scan_no_fit lo endWin d tz busy : forall cursor,
  1 <= d ->
  lo <= cursor -> endWin <= lo ->
  Forall (fun b => start b - lo < in_ms d /\ start b - lo <= 2 ^ 53) busy ->
  js_scan busy cursor endWin (durMs_js d) tz = Content (notFound tz).
Proof.
  induction busy as [| b rest IH]; intros cursor Hd Hlo Hend Hall.
  - rewrite js_scan_nil.
    rewrite js_ge_fails; [reflexivity | exact Hd | unfold in_ms; lia |].
    assert (0 < 2 ^ 53) by reflexivity. lia.
  - apply Forall_cons_iff in Hall. destruct Hall as [[Hb1 Hb2] Hrest].
    rewrite js_scan_cons.
    rewrite js_ge_fails; [| exact Hd | lia | lia].
    apply IH; [exact Hd | lia | exact Hend | exact Hrest].
Qed.

(** C5, as the handler has it. For an inverted or empty window
    ([windowStart >= windowEnd]), a duration of at least one minute and a
    busy list whose intervals each start less than the duration after
    [windowStart] (and no more than 2^53 ms after it, where the handler's
    difference is still exact), the handler returns the "not found"
    payload, [slotStart] and [slotEnd] both null: not a slot, and not an
    error. *)
Theorem findFreeSlot_js_degenerate_window :
  forall (busy : list BusyInterval) (w : SearchWindow) (duration : Z)
         (tz : string),
    windowStart w >= windowEnd w ->
    1 <= duration ->
    Forall (starts_too_soon w duration) busy ->
    findFreeSlot_js busy w duration tz = Content (mkResult None None tz).
Proof.
  intros busy w duration tz Hw Hd Hall.
  unfold findFreeSlot_js, calendar_find_free_js.
  destruct (duration <? 1) eqn:E; [apply Z.ltb_lt in E; lia |].
  apply (js_scan_no_fit (windowStart w)); [exact Hd | lia | lia | exact Hall].
Qed.

Lemma findFreeSlot_js_degenerate_window_witness :
  findFreeSlot_js [mkBusy 1800000 2400000] (mkWindow 3600000 0) 30 "UTC" =
  Content (mkResult None None "UTC").
Proof.
  apply (findFreeSlot_js_degenerate_window
           [mkBusy 1800000 2400000] (mkWindow 3600000 0) 30 "UTC").
  - cbn. lia.
  - lia.
  - apply Forall_cons; [| apply Forall_nil].
    unfold starts_too_soon, in_ms. cbn. lia.
Defined.

(** The claim C5 as it is written fails: an interval that starts at least
    the duration after the cursor ends the scan with a slot, whatever the
    window. Inverted window [[60, 0]] and empty window [[60, 60]], duration
    30, one busy interval [[120, 150]] (minutes): the slot is [[60, 90]].
    And where the difference is rounded, an interval that starts one
    millisecond less than the duration after the window's start does too:
    empty window at -6e15 ms, duration 2e11 minutes, busy
    [[6e15 - 1, 6e15]]. *)
Lemma findFreeSlot_js_degenerate_window_slot :
  (let busy := [mkBusy 7200000 9000000] in
   findFreeSlot_js busy (mkWindow 3600000 0) 30 "UTC" =
     Content (mkResult (Some 3600000) (Some 5400000) "UTC")
   /\ findFreeSlot_js busy (mkWindow 3600000 3600000) 30 "UTC" =
     Content (mkResult (Some 3600000) (Some 5400000) "UTC"))
  /\ (let w := mkWindow (-6000000000000000) (-6000000000000000) in
      let b := mkBusy 5999999999999999 6000000000000000 in
      start b - windowStart w < in_ms 200000000000
      /\ findFreeSlot_js [b] w 200000000000 "UTC" =
         Content (mkResult (Some (-6000000000000000))
                           (Some 6000000000000000) "UTC"))
  /\ Content (mkResult (Some 3600000) (Some 5400000) "UTC") <>
     Content (mkResult None None "UTC").
Proof.
  cbv zeta. split; [split; reflexivity |].
  split; [split; reflexivity | discriminate].
Qed.

Lemma sorted_after_split (R : BusyInterval -> BusyInterval -> Prop) l1 :
  forall b l2, StronglySorted R (l1 ++ b :: l2) -> Forall (R b) l2.
Proof.
  induction l1 as [| a l1 IH]; intros b l2 H.
  - apply StronglySorted_inv in H. apply H.
  - apply StronglySorted_inv in H. apply (IH b l2). apply H.
Qed.

(** C10, as the handler has it. When the busy list is ascending by start
    (its intervals may overlap one another), no test against a start is
    rounded (the duration fits 53 bits of milliseconds, or no interval
    starts more than 2^53 ms after [windowStart]) and the handler returns a
    slot [[slotStart, slotEnd]], the slot overlaps no busy interval of the
    list: for every interval [b], [slotEnd <= b.start] or
    [slotStart >= b.end]. *)
Theorem findFreeSlot_js_slot_is_free :
  forall (busy : list BusyInterval) (w : SearchWindow) (duration : Z)
         (tz : string) (s e : Z),
    sorted_by_start busy ->
    starts_unrounded busy w duration ->
    findFreeSlot_js busy w duration tz =
      Content (mkResult (Some s) (Some e) tz) ->
    forall b, In b busy -> e <= start b \/ s >= end_ b.
Proof.
  intros busy w duration tz s e Hsorted Hun H b Hin.
  unfold findFreeSlot_js in H.
  apply calendar_find_free_js_slot in H.
  destruct H as [Hd [D [HD [Hpos H]]]].
  apply js_scan_slot in H. destruct H as [Hs [-> [_ Hwhere]]].
  apply Sorted_StronglySorted in Hsorted; [| exact by_start_transitive].
  destruct Hwhere as [[l1 [b0 [l2 [-> [Hl1 Ht]]]]] | [Hall _]].
  - assert (Hb0 : s + D <= start b0).
    { apply js_ge_sound in Ht; [lia | exact Hpos |].
      destruct Hun as [Hun | Hun].
      - left. rewrite durMs_js_exact in HD by assumption.
        injection HD as <-. exact Hun.
      - right. rewrite Forall_forall in Hun.
        assert (Hin0 : In b0 (l1 ++ b0 :: l2))
          by (apply in_or_app; right; left; reflexivity).
        specialize (Hun b0 Hin0). cbv beta in Hun. lia. }
    apply in_app_or in Hin. destruct Hin as [Hin | [<- | Hin]].
    + right. rewrite Forall_forall in Hl1. specialize (Hl1 b Hin).
      cbv beta in Hl1. lia.
    + left. exact Hb0.
    + left. apply sorted_after_split in Hsorted.
      rewrite Forall_forall in Hsorted. specialize (Hsorted b Hin).
      cbv beta in Hsorted. lia.
  - right. rewrite Forall_forall in Hall. specialize (Hall b Hin).
    cbv beta in Hall. lia.
Qed.

Lemma findFreeSlot_js_slot_is_free_witness :
  1800000 <= 900000 \/ 1500000 >= 1500000.
Proof.
  refine (findFreeSlot_js_slot_is_free
            [mkBusy 0 1200000; mkBusy 900000 1500000]
            (mkWindow 0 1800000) 5 "UTC" 1500000 1800000 _ _ _
            (mkBusy 900000 1500000) _).
  - unfold sorted_by_start. repeat constructor. cbn. lia.
  - left. unfold in_ms. cbn. lia.
  - reflexivity.
  - right. left. reflexivity.
Defined.

(** The claim C10 as it is written fails where the handler rounds: window
    from -8e15 ms, duration 2.6e11 minutes, one busy interval
    [[7.6e15 - 1, 7.6e15 + 10]] (ms). The gap before the interval is one
    millisecond too short, the handler's difference rounds up to the
    duration, and the returned slot [[-8e15, 7.6e15]] ends inside the busy
    interval. *)
Lemma findFreeSlot_js_slot_overlaps :
  let b := mkBusy 7599999999999999 7600000000000010 in
  let w := mkWindow (-8000000000000000) 8000000000000000 in
  sorted_by_start [b]
  /\ findFreeSlot_js [b] w 260000000000 "UTC" =
     Content (mkResult (Some (-8000000000000000))
                       (Some 7600000000000000) "UTC")
  /\ ~ (7600000000000000 <= start b \/ -8000000000000000 >= end_ b).
Proof.
  cbv zeta. split; [| split].
  - unfold sorted_by_start. repeat constructor.
  - reflexivity.
  - cbn. lia.
Qed.



Lemma js_scan_time_zone busy : forall cursor endWin durMs tz r,
  js_scan busy cursor endWin durMs tz = Content r -> timeZone r = tz.
Proof.
  induction busy as [| b rest IH]; intros cursor endWin durMs tz r.
  - rewrite js_scan_nil.
    destruct (js_ge (fl (endWin - cursor)) durMs).
    + unfold js_found. destruct (toISOString cursor); [| discriminate].
      destruct durMs as [D |]; [| discriminate].
      destruct (toISOString (fl (cursor + D))); [| discriminate].
      intros H. injection H as <-. reflexivity.
    + intros H. injection H as <-. reflexivity.
  - rewrite js_scan_cons.
    destruct (js_ge (fl (start b - cursor)) durMs); [| apply IH].
    unfold js_found. destruct (toISOString cursor); [| discriminate].
    destruct durMs as [D |]; [| discriminate].
    destruct (toISOString (fl (cursor + D))); [| discriminate].
    intros H. injection H as <-. reflexivity.
Qed.




(** ** The payload's time zone *)

(** When a [calendar_find_free] call is answered with a payload, its
    [timeZone] is the caller's, or [DEFAULT_TZ] when the caller names none;
    the default is never the empty string, even when the environment
    variable is set to it. *)
Theorem calendar_find_free_tool_time_zone :
  forall (env : option string)
         (getCalendar :
            option (Z -> Z -> string -> option (option (list BusyInterval))))
         (args : FindFreeArgs) (r : FreeSlotResult),
    calendar_find_free_tool env getCalendar args = Content r ->
    timeZone r = match timeZone_arg args with
                 | Some z => z
                 | None => DEFAULT_TZ env
                 end
    /\ (timeZone_arg args = None -> timeZone r <> EmptyString).
Proof.
  intros env getCalendar args r H.
  assert (Htz : timeZone r = match timeZone_arg args with
                             | Some z => z
                             | None => DEFAULT_TZ env
                             end).
  { unfold calendar_find_free_tool in H.
    destruct (durationMinutes args) as [d |]; [| discriminate].
    destruct (timeMin args) as [tMin |]; [| discriminate].
    destruct (timeMax args) as [tMax |]; [| discriminate].
    destruct (d <? 1); [discriminate |].
    destruct getCalendar as [query |]; [| discriminate].
    destruct (query tMin tMax _) as [answer |]; [| discriminate].
    exact (js_scan_time_zone _ _ _ _ _ _ H). }
  split; [exact Htz |].
  intros Hnone. rewrite Htz, Hnone. unfold DEFAULT_TZ.
  destruct env as [s |]; [| discriminate].
  destruct (String.eqb_spec s EmptyString) as [| Hs]; [discriminate | exact Hs].
Qed.

Lemma calendar_find_free_tool_time_zone_witness :
  let r := mkResult (Some 0) (Some 1800000) "America/Chicago" in
  timeZone r = DEFAULT_TZ (Some EmptyString)
  /\ (@None string = None -> timeZone r <> EmptyString).
Proof.
  intros r.
  apply (calendar_find_free_tool_time_zone (Some EmptyString)
           (Some (fun _ _ _ => Some None))
           (mkFindFreeArgs (Some 30) (Some 0) (Some 7200000) None) r).
  reflexivity.
Defined.
